(** * netx: the bidirectional copy engine ([copy.go])

    A shallow embedding of [BidiCopy], [doCopy] and [isTimeout], and the
    properties of the duplex relay that follow from the code.

    Conventions.
    - Go's [int], [uint32], [time.Time] (nanoseconds) and [time.Duration]
      (nanoseconds) are modelled as [Z]; the code only compares them and
      adds a duration to a clock reading.
    - A Go [string] is a sequence of bytes: Rocq's [string].
    - A [net.Conn] is an external object: a connection is named by an
      identifier, and what its [Read] and [Write] return is chosen by the
      environment.  The payload carried by the buffer is not modelled, only
      the byte counts the code tests. *)

From Stdlib Require Import ZArith List Bool Lia.
From Stdlib Require Import Strings.String Strings.Ascii.
Import ListNotations.

Local Open Scope Z_scope.

(** ** Errors *)

(** A value of Go's interface type [error]: [nil], one of the two sentinel
    values of package [io] that the code names, or any other error, carrying
    the text its [Error()] method returns. *)
Inductive error : Type :=
| Nil
| EOF                      (* io.EOF *)
| ErrShortWrite            (* io.ErrShortWrite *)
| Errorf (msg : string).   (* any other error value *)

(** [err.Error()].  Calling the method on the nil interface is a nil
    dereference: [None]. *)
Definition Error (err : error) : option string :=
  match err with
  | Nil => None
  | EOF => Some "EOF"%string
  | ErrShortWrite => Some "short write"%string
  | Errorf msg => Some msg
  end.

(** [er == io.EOF] and [er != nil]: comparison of interface values. *)
Definition is_EOF (er : error) : bool :=
  match er with EOF => true | _ => false end.

Definition is_nil (er : error) : bool :=
  match er with Nil => true | _ => false end.

Definition error_eqb (e e' : error) : bool :=
  match e, e' with
  | Nil, Nil => true
  | EOF, EOF => true
  | ErrShortWrite, ErrShortWrite => true
  | Errorf m, Errorf m' => String.eqb m m'
  | _, _ => false
  end.

(** ** Constants of the package *)

Definition ioTimeout : string := "i/o timeout"%string.
Definition ioTimeoutLength : Z := 11.

(** [copyTimeout = 1 * time.Second], in nanoseconds. *)
Definition copyTimeout : Z := 1 * 1000000000.

(** ** isTimeout *)

(** [len(es)]. *)
Definition len (es : string) : Z := Z.of_nat (String.length es).

Fixpoint drop (n : nat) (s : string) : string :=
  match n, s with
  | O, _ => s
  | S n', String _ s' => drop n' s'
  | S _, EmptyString => EmptyString
  end.

(** The slice expression [es[lo:]]: a run-time panic ([None]) when [lo] is
    out of the range [0 .. len(es)]. *)
Definition slice_from (es : string) (lo : Z) : option string :=
  if (0 <=? lo) && (lo <=? len es) then Some (drop (Z.to_nat lo) es) else None.

(** [func isTimeout(err error) bool].  [None] is a panic.  The right operand
    of [&&] is evaluated only when the left one is true. *)
Definition isTimeout (err : error) : option bool :=
  match Error err with
  | None => None
  | Some es =>
      let esl := len es in
      if ioTimeoutLength <=? esl then
        match slice_from es (esl - ioTimeoutLength) with
        | Some tail => Some (String.eqb tail ioTimeout)
        | None => None
        end
      else Some false
  end.

(** ** Connections, channels and the actions of a goroutine *)

(** A [net.Conn] value, by identity. *)
Definition conn : Type := nat.

(** The two result channels made by [BidiCopy], each of capacity 1. *)
Inductive chan : Type := OutErrCh | InErrCh.

(** The goroutines of one [BidiCopy] call: the caller's, the one started on
    line 28 (copying to [out]) and the one started on line 29 (copying to
    [in]). *)
Inductive tid : Type := TMain | TOut | TIn.

(** A piece of straight-line code: a tree of the externally visible actions
    it performs, each with the continuation that receives the action's
    result.  [Panic] is a run-time panic. *)
Inductive prog (R : Type) : Type :=
| Ret (r : R)
| Panic
| LoadUint32 (k : Z -> prog R)                           (* atomic.LoadUint32(stop) *)
| StoreUint32 (v : Z) (k : prog R)                       (* atomic.StoreUint32(stop, v) *)
| Now (k : Z -> prog R)                                  (* time.Now() *)
| SetReadDeadline (c : conn) (t : Z) (k : prog R)        (* c.SetReadDeadline(t) *)
| SetWriteDeadline (c : conn) (t : Z) (k : prog R)       (* c.SetWriteDeadline(t) *)
| Read (c : conn) (size : Z) (k : Z -> error -> prog R)  (* c.Read(buf), len(buf) = size *)
| Write (c : conn) (n : Z) (k : Z -> error -> prog R)    (* c.Write(buf[0:n]) *)
| Send (ch : chan) (e : error) (k : prog R)              (* ch <- e *)
| Recv (ch : chan) (k : error -> prog R)                 (* <-ch *)
| Go (g : tid) (k : prog R).                             (* go doCopy(...) *)

Arguments Ret {R} r.
Arguments Panic {R}.
Arguments LoadUint32 {R} k.
Arguments StoreUint32 {R} v k.
Arguments Now {R} k.
Arguments SetReadDeadline {R} c t k.
Arguments SetWriteDeadline {R} c t k.
Arguments Read {R} c size k.
Arguments Write {R} c n k.
Arguments Send {R} ch e k.
Arguments Recv {R} ch k.
Arguments Go {R} g k.

Fixpoint bind {R S : Type} (p : prog R) (f : R -> prog S) : prog S :=
  match p with
  | Ret r => f r
  | Panic => Panic
  | LoadUint32 k => LoadUint32 (fun v => bind (k v) f)
  | StoreUint32 v k => StoreUint32 v (bind k f)
  | Now k => Now (fun t => bind (k t) f)
  | SetReadDeadline c t k => SetReadDeadline c t (bind k f)
  | SetWriteDeadline c t k => SetWriteDeadline c t (bind k f)
  | Read c size k => Read c size (fun n e => bind (k n e) f)
  | Write c n k => Write c n (fun nw ew => bind (k nw ew) f)
  | Send ch e k => Send ch e (bind k f)
  | Recv ch k => Recv ch (fun e => bind (k e) f)
  | Go g k => Go g (bind k f)
  end.

Notation "x <- p ;; q" := (bind p (fun x => q))
  (at level 61, p at next level, right associativity).
Notation "' pat <- p ;; q" := (bind p (fun x => match x with pat => q end))
  (at level 61, pat pattern, p at next level, right associativity).
Notation "p ;;; q" := (bind p (fun _ => q))
  (at level 61, right associativity).

Definition atomic_LoadUint32 : prog Z := LoadUint32 Ret.
Definition atomic_StoreUint32 (v : Z) : prog unit := StoreUint32 v (Ret tt).
Definition time_Now : prog Z := Now Ret.
Definition conn_SetReadDeadline (c : conn) (t : Z) : prog unit :=
  SetReadDeadline c t (Ret tt).
Definition conn_SetWriteDeadline (c : conn) (t : Z) : prog unit :=
  SetWriteDeadline c t (Ret tt).
Definition conn_Read (c : conn) (size : Z) : prog (Z * error) :=
  Read c size (fun nr er => Ret (nr, er)).
Definition conn_Write (c : conn) (n : Z) : prog (Z * error) :=
  Write c n (fun nw ew => Ret (nw, ew)).
Definition chan_Send (ch : chan) (e : error) : prog unit := Send ch e (Ret tt).
Definition chan_Recv (ch : chan) : prog error := Recv ch Ret.
Definition go (g : tid) : prog unit := Go g (Ret tt).

(** [t.Add(d)]. *)
Definition time_Add (t d : Z) : Z := t + d.

(** ** doCopy *)

(** The arguments of one [doCopy] call; [buf] is [len(buf)].  The [stop]
    pointer is not listed: both calls receive the address of the one
    variable of [BidiCopy]. *)
Record args : Type := mkArgs {
  dst : conn;
  src : conn;
  buf : Z;
  writeTimeout : Z;
  errCh : chan
}.

(** How one pass through the body of [for { ... }] ends: at the closing
    brace, or at a [return]; either way with the current value of the local
    variable [err]. *)
Inductive ctl : Type :=
| Continue (err : error)
| Return (err : error).

(** Lines 59-71: what the loop does with the read error [er]. *)
Definition classify (stopping : bool) (er : error) (err : error) : prog ctl :=
  if is_EOF er then Ret (Return err)
  else if negb (is_nil er) then
    match isTimeout er with
    | Some true => if stopping then Ret (Return err) else Ret (Continue err)
    | Some false => Ret (Return er)      (* err = er; return *)
    | None => Panic
    end
  else Ret (Continue err).

(** Lines 43-71: the body of the loop, entered with [err]. *)
Definition loop_body (a : args) (err : error) : prog ctl :=
  stop <- atomic_LoadUint32 ;;
  let stopping := stop =? 1 in
  (if stopping
   then now <- time_Now ;; conn_SetReadDeadline (src a) (time_Add now copyTimeout)
   else Ret tt) ;;;
  '(nr, er) <- conn_Read (src a) (buf a) ;;
  if 0 <? nr then
    now <- time_Now ;;
    conn_SetWriteDeadline (dst a) (time_Add now (writeTimeout a)) ;;;
    '(nw, ew) <- conn_Write (dst a) nr ;;
    let err := if negb (is_nil err) then ew else err in
    if negb (nw =? nr) then Ret (Return ErrShortWrite)
    else classify stopping er err
  else classify stopping er err.

(** Lines 36-40: the deferred function, run when [doCopy] returns with
    [err]. *)
Definition deferred (a : args) (err : error) : prog unit :=
  atomic_StoreUint32 1 ;;;
  now <- time_Now ;;
  conn_SetReadDeadline (dst a) (time_Add now copyTimeout) ;;;
  chan_Send (errCh a) err.

(** ** Execution of one goroutine *)

(** What the environment hands back to an action. *)
Inductive resp : Type :=
| RUnit                      (* the action returns nothing the code uses *)
| RVal (v : Z)               (* a loaded word, or a clock reading *)
| RIO (n : Z) (e : error)    (* the result of Read or Write *)
| RErr (e : error).          (* the value received from a channel *)

(** The action performed, with its arguments and result. *)
Inductive event : Type :=
| EvLoad (v : Z)
| EvStore (v : Z)
| EvNow (t : Z)
| EvSetReadDeadline (c : conn) (t : Z)
| EvSetWriteDeadline (c : conn) (t : Z)
| EvRead (c : conn) (nr : Z) (er : error)
| EvWrite (c : conn) (n : Z) (nw : Z) (ew : error)
| EvSend (ch : chan) (e : error)
| EvRecv (ch : chan) (e : error)
| EvGo (g : tid).

(** One action of a piece of code.  A [Read] returns a count within its
    buffer ([0 <= n <= len(p)], the contract of [io.Reader]); no other
    result is a step. *)
Definition pstep {R : Type} (p : prog R) (r : resp) : option (event * prog R) :=
  match p, r with
  | LoadUint32 k, RVal v => Some (EvLoad v, k v)
  | StoreUint32 v k, RUnit => Some (EvStore v, k)
  | Now k, RVal t => Some (EvNow t, k t)
  | SetReadDeadline c t k, RUnit => Some (EvSetReadDeadline c t, k)
  | SetWriteDeadline c t k, RUnit => Some (EvSetWriteDeadline c t, k)
  | Read c size k, RIO n e =>
      if (0 <=? n) && (n <=? size) then Some (EvRead c n e, k n e) else None
  | Write c n k, RIO nw ew => Some (EvWrite c n nw ew, k nw ew)
  | Send ch e k, RUnit => Some (EvSend ch e, k)
  | Recv ch k, RErr e => Some (EvRecv ch e, k e)
  | Go g k, RUnit => Some (EvGo g, k)
  | _, _ => None
  end.

(** Where a [doCopy] goroutine is: inside the loop, inside the deferred
    function, or finished. *)
Inductive thread : Type :=
| Loop (p : prog ctl)
| Defer (p : prog unit)
| Exited.

(** The loop closes: the closing brace jumps back to line 43, a [return]
    enters the deferred function. *)
Definition resume (a : args) (p : prog ctl) : thread :=
  match p with
  | Ret (Continue err) => Loop (loop_body a err)
  | Ret (Return err) => Defer (deferred a err)
  | _ => Loop p
  end.

Definition finish (p : prog unit) : thread :=
  match p with
  | Ret _ => Exited
  | _ => Defer p
  end.

(** [doCopy(dst, src, buf, writeTimeout, errCh, stop)] at its first
    statement: [var err error] is nil. *)
Definition doCopy (a : args) : thread := Loop (loop_body a Nil).

Definition tstep (a : args) (t : thread) (r : resp) : option (event * thread) :=
  match t with
  | Loop p =>
      match pstep p r with
      | Some (ev, p') => Some (ev, resume a p')
      | None => None
      end
  | Defer p =>
      match pstep p r with
      | Some (ev, p') => Some (ev, finish p')
      | None => None
      end
  | Exited => None
  end.

(** A goroutine run alone against the results [rs]: where it ends up and
    what it did, oldest action first. *)
Fixpoint trun (a : args) (rs : list resp) (t : thread) : option (thread * list event) :=
  match rs with
  | [] => Some (t, [])
  | r :: rs' =>
      match tstep a t r with
      | Some (ev, t') =>
          match trun a rs' t' with
          | Some (t'', evs) => Some (t'', ev :: evs)
          | None => None
          end
      | None => None
      end
  end.

(** ** BidiCopy: the three goroutines and what they share *)

(** The arguments of one [BidiCopy] call; the buffers by their length. *)
Record call : Type := mkCall {
  out : conn;
  in_ : conn;
  bufOut : Z;
  bufIn : Z;
  wTimeout : Z
}.

(** Line 28: [go doCopy(out, in, bufIn, writeTimeout, outErrCh, &stop)]. *)
Definition args_out (c : call) : args :=
  mkArgs (out c) (in_ c) (bufIn c) (wTimeout c) OutErrCh.

(** Line 29: [go doCopy(in, out, bufOut, writeTimeout, inErrCh, &stop)]. *)
Definition args_in (c : call) : args :=
  mkArgs (in_ c) (out c) (bufOut c) (wTimeout c) InErrCh.

(** Lines 28-30, the caller's goroutine: the two [go] statements, then the
    two receives of the [return] statement, left operand first. *)
Definition BidiCopy_body : prog (error * error) :=
  go TOut ;;;
  go TIn ;;;
  outErr <- chan_Recv OutErrCh ;;
  inErr <- chan_Recv InErrCh ;;
  Ret (outErr, inErr).

(** What the goroutines share: the variable [stop], the two channels (a
    buffer of one slot each) and the deadlines armed on the connections. *)
Record world : Type := mkWorld {
  stop : Z;
  outErrCh : option error;
  inErrCh : option error;
  rdl : conn -> option Z;      (* read deadline, when one was set *)
  wdl : conn -> option Z       (* write deadline, when one was set *)
}.

Definition upd (f : conn -> option Z) (c : conn) (t : Z) : conn -> option Z :=
  fun c' => if Nat.eqb c' c then Some t else f c'.

Definition slot (w : world) (ch : chan) : option error :=
  match ch with
  | OutErrCh => outErrCh w
  | InErrCh => inErrCh w
  end.

Definition set_slot (w : world) (ch : chan) (v : option error) : world :=
  match ch with
  | OutErrCh => mkWorld (stop w) v (inErrCh w) (rdl w) (wdl w)
  | InErrCh => mkWorld (stop w) (outErrCh w) v (rdl w) (wdl w)
  end.

(** What an action does to the shared state, and when it can happen at
    all: an atomic load returns the value of [stop]; a send needs the
    channel's slot free and a receive needs it full (they block
    otherwise). *)
Definition effect (w : world) (ev : event) : option world :=
  match ev with
  | EvLoad v => if v =? stop w then Some w else None
  | EvStore v => Some (mkWorld v (outErrCh w) (inErrCh w) (rdl w) (wdl w))
  | EvNow _ => Some w
  | EvSetReadDeadline c t =>
      Some (mkWorld (stop w) (outErrCh w) (inErrCh w) (upd (rdl w) c t) (wdl w))
  | EvSetWriteDeadline c t =>
      Some (mkWorld (stop w) (outErrCh w) (inErrCh w) (rdl w) (upd (wdl w) c t))
  | EvRead _ _ _ => Some w
  | EvWrite _ _ _ _ => Some w
  | EvSend ch e =>
      match slot w ch with
      | None => Some (set_slot w ch (Some e))
      | Some _ => None
      end
  | EvRecv ch e =>
      match slot w ch with
      | Some e' => if error_eqb e e' then Some (set_slot w ch None) else None
      | None => None
      end
  | EvGo _ => Some w
  end.

(** The state of one [BidiCopy] call: its arguments, the shared state, the
    three goroutines (a copier is [None] until its [go] statement has run)
    and the actions so far, oldest first, each with the goroutine that did
    it. *)
Record sys : Type := mkSys {
  params : call;
  shared : world;
  gmain : prog (error * error);
  gout : option thread;
  gin : option thread;
  log : list (tid * event)
}.

(** [BidiCopy(out, in, bufOut, bufIn, writeTimeout)] after lines 25-27:
    [stop := uint32(0)] and the two empty channels.  The deadlines the
    caller left on the connections are [rdl0] and [wdl0]. *)
Definition BidiCopy (c : call) (rdl0 wdl0 : conn -> option Z) : sys :=
  mkSys c (mkWorld 0 None None rdl0 wdl0) BidiCopy_body None None [].

(** The arguments of the [doCopy] call that goroutine [i] runs. *)
Definition args_of (c : call) (i : tid) : args :=
  match i with
  | TIn => args_in c
  | _ => args_out c
  end.

(** A [go] statement creates its goroutine at the first statement of
    [doCopy]. *)
Definition spawn (ev : event) (s : sys) : sys :=
  match ev with
  | EvGo TOut =>
      mkSys (params s) (shared s) (gmain s)
            (Some (doCopy (args_out (params s)))) (gin s) (log s)
  | EvGo TIn =>
      mkSys (params s) (shared s) (gmain s)
            (gout s) (Some (doCopy (args_in (params s)))) (log s)
  | _ => s
  end.

(** One action of goroutine [i], the scheduler's choice, with the result [r]
    the environment gives it.  [None]: the goroutine cannot do that now. *)
Definition step (s : sys) (m : tid * resp) : option sys :=
  let (i, r) := m in
  match i with
  | TMain =>
      match pstep (gmain s) r with
      | Some (ev, p') =>
          match effect (shared s) ev with
          | Some w' =>
              Some (spawn ev (mkSys (params s) w' p' (gout s) (gin s)
                                    (log s ++ [(TMain, ev)])))
          | None => None
          end
      | None => None
      end
  | TOut =>
      match gout s with
      | Some t =>
          match tstep (args_out (params s)) t r with
          | Some (ev, t') =>
              match effect (shared s) ev with
              | Some w' =>
                  Some (mkSys (params s) w' (gmain s) (Some t') (gin s)
                              (log s ++ [(TOut, ev)]))
              | None => None
              end
          | None => None
          end
      | None => None
      end
  | TIn =>
      match gin s with
      | Some t =>
          match tstep (args_in (params s)) t r with
          | Some (ev, t') =>
              match effect (shared s) ev with
              | Some w' =>
                  Some (mkSys (params s) w' (gmain s) (gout s) (Some t')
                              (log s ++ [(TIn, ev)]))
              | None => None
              end
          | None => None
          end
      | None => None
      end
  end.

(** A schedule, run from [s]. *)
Fixpoint exec (ms : list (tid * resp)) (s : sys) : option sys :=
  match ms with
  | [] => Some s
  | m :: ms' =>
      match step s m with
      | Some s' => exec ms' s'
      | None => None
      end
  end.

(** The values [stop] takes along a schedule, the starting one first. *)
Fixpoint stops (ms : list (tid * resp)) (s : sys) : list Z :=
  stop (shared s) ::
  match ms with
  | [] => []
  | m :: ms' =>
      match step s m with
      | Some s' => stops ms' s'
      | None => []
      end
  end.

(** The actions of goroutine [i] in a log. *)
Fixpoint proj (i : tid) (l : list (tid * event)) : list event :=
  match l with
  | [] => []
  | (j, ev) :: l' =>
      match i, j with
      | TMain, TMain | TOut, TOut | TIn, TIn => ev :: proj i l'
      | _, _ => proj i l'
      end
  end.

(** What [BidiCopy] has returned, once its goroutine is at [return]. *)
Definition returned (s : sys) : option (error * error) :=
  match gmain s with
  | Ret r => Some r
  | _ => None
  end.

(** The copier goroutine [i], when it has been started. *)
Definition thread_of (s : sys) (i : tid) : option thread :=
  match i with
  | TMain => None
  | TOut => gout s
  | TIn => gin s
  end.

(** The copier of the other direction. *)
Definition other (i : tid) : tid :=
  match i with
  | TOut => TIn
  | TIn => TOut
  | TMain => TMain
  end.

(** ** Sample inputs *)

(** [out] and [in] are two connections, the buffers hold 4096 bytes and
    the write timeout is five seconds. *)
Definition sample_call : call := mkCall 0%nat 1%nat 4096 4096 5000000000.

Definition sample_args : args := args_out sample_call.

Definition no_deadline : conn -> option Z := fun _ => None.

(** A whole session: both copiers are started; the copier to [out] reads
    end-of-stream at once and returns; the copier to [in] then loads the
    stop flag as 1, arms its source, has its read time out and returns; the
    caller receives the two nil errors. *)
Definition sample_schedule : list (tid * resp) :=
  [(TMain, RUnit); (TMain, RUnit);
   (TOut, RVal 0); (TOut, RIO 0 EOF);
   (TOut, RUnit); (TOut, RVal 10); (TOut, RUnit); (TOut, RUnit);
   (TIn, RVal 1); (TIn, RVal 11); (TIn, RUnit);
   (TIn, RIO 0 (Errorf "read tcp: i/o timeout"));
   (TIn, RUnit); (TIn, RVal 12); (TIn, RUnit);
   (TMain, RErr Nil); (TIn, RUnit); (TMain, RErr Nil)].

(** The state that schedule ends in. *)
Definition sample_final : sys :=
  mkSys sample_call
        (mkWorld 1 None None
                 (upd (upd (upd no_deadline 0%nat (time_Add 10 copyTimeout))
                           0%nat (time_Add 11 copyTimeout))
                      1%nat (time_Add 12 copyTimeout))
                 no_deadline)
        (Ret (Nil, Nil)) (Some Exited) (Some Exited)
        [(TMain, EvGo TOut); (TMain, EvGo TIn);
         (TOut, EvLoad 0); (TOut, EvRead 1%nat 0 EOF);
         (TOut, EvStore 1); (TOut, EvNow 10);
         (TOut, EvSetReadDeadline 0%nat (time_Add 10 copyTimeout));
         (TOut, EvSend OutErrCh Nil);
         (TIn, EvLoad 1); (TIn, EvNow 11);
         (TIn, EvSetReadDeadline 0%nat (time_Add 11 copyTimeout));
         (TIn, EvRead 0%nat 0 (Errorf "read tcp: i/o timeout"));
         (TIn, EvStore 1); (TIn, EvNow 12);
         (TIn, EvSetReadDeadline 1%nat (time_Add 12 copyTimeout));
         (TMain, EvRecv OutErrCh Nil); (TIn, EvSend InErrCh Nil);
         (TMain, EvRecv InErrCh Nil)].

(** ** Vocabulary of the statements *)

(** [es] ends with [suf]. *)
Definition has_suffix (es suf : string) : Prop :=
  exists p, es = (p ++ suf)%string.

(** An error whose text ends with the sentinel. *)
Definition timeout_shaped (er : error) : Prop :=
  exists es, Error er = Some es /\ has_suffix es ioTimeout.

(** The actions of the deferred function when [doCopy] returns [e], the
    clock reading [tn]. *)
Definition deferred_trace (a : args) (e : error) (tn : Z) : list event :=
  [EvStore 1; EvNow tn; EvSetReadDeadline (dst a) (time_Add tn copyTimeout);
   EvSend (errCh a) e].

(** The goroutine at [t] has left the loop with terminal error [e]: all it
    still does is the deferred function, up to the send of [e] on its
    channel, and it does that. *)
Definition exits_with (a : args) (t : thread) (e : error) : Prop :=
  (forall rs t' evs, trun a rs t = Some (t', evs) ->
     exists tn rest, evs ++ rest = deferred_trace a e tn) /\
  (forall tn, trun a [RUnit; RVal tn; RUnit; RUnit] t =
              Some (Exited, deferred_trace a e tn)).

(** The results the environment gives during one pass through the loop
    body: the value [v] of the stop flag (and the clock reading [tn] when it
    is set), the result [(nr, er)] of the read, and, when bytes were read,
    the clock reading [tw] and the result [(nw, ew)] of the write. *)
Definition iteration (v tn nr : Z) (er : error) (tw nw : Z) (ew : error) : list resp :=
  RVal v :: (if v =? 1 then [RVal tn; RUnit] else []) ++
  RIO nr er :: (if 0 <? nr then [RVal tw; RUnit; RIO nw ew] else []).

(** The actions of that pass. *)
Definition pass_trace (a : args) (v tn nr : Z) (er : error) (tw nw : Z) (ew : error)
  : list event :=
  EvLoad v ::
  (if v =? 1
   then [EvNow tn; EvSetReadDeadline (src a) (time_Add tn copyTimeout)]
   else []) ++
  EvRead (src a) nr er ::
  (if 0 <? nr
   then [EvNow tw; EvSetWriteDeadline (dst a) (time_Add tw (writeTimeout a));
         EvWrite (dst a) nr nw ew]
   else []).

(** [p] performs [tr] and is then at [q]. *)
Inductive ptrace {R : Type} : prog R -> list event -> prog R -> Prop :=
| ptrace_nil p : ptrace p [] p
| ptrace_cons p r ev p' tr q :
    pstep p r = Some (ev, p') -> ptrace p' tr q -> ptrace p (ev :: tr) q.

Definition is_ret {R : Type} (p : prog R) : bool :=
  match p with Ret _ => true | _ => false end.

(** A pass through the loop body that reaches the closing brace. *)
Definition full_pass (a : args) (tr : list event) : Prop :=
  ptrace (loop_body a Nil) tr (Ret (Continue Nil)).

(** The shape of every run of [doCopy]: complete passes through the loop
    body, then either a pass under way, or a pass ending in [return e]
    followed by the deferred function, under way or finished. *)
Inductive run_shape (a : args) : thread -> list event -> Prop :=
| shape_loop passes tr p :
    Forall (full_pass a) passes ->
    ptrace (loop_body a Nil) tr p -> is_ret p = false ->
    run_shape a (Loop p) (List.concat passes ++ tr)
| shape_defer passes last e tr p :
    Forall (full_pass a) passes ->
    ptrace (loop_body a Nil) last (Ret (Return e)) ->
    ptrace (deferred a e) tr p -> is_ret p = false ->
    run_shape a (Defer p) (List.concat passes ++ last ++ tr)
| shape_exited passes last e tr :
    Forall (full_pass a) passes ->
    ptrace (loop_body a Nil) last (Ret (Return e)) ->
    ptrace (deferred a e) tr (Ret tt) ->
    run_shape a Exited (List.concat passes ++ last ++ tr).

(** The goroutine that sends on a channel. *)
Definition ch_tid (ch : chan) : tid :=
  match ch with
  | OutErrCh => TOut
  | InErrCh => TIn
  end.

(** What holds of every state of a [BidiCopy c] call. *)
Record session_inv (c : call) (s : sys) : Prop := mkInv {
  inv_params : params s = c;
  (* the caller's goroutine is somewhere in lines 28-30 *)
  inv_main : ptrace BidiCopy_body (proj TMain (log s)) (gmain s);
  (* a copier exists once its go statement has run, and is a run of doCopy *)
  inv_copier : forall i, i = TOut \/ i = TIn ->
    match thread_of s i with
    | None => proj i (log s) = [] /\ ~ In (EvGo i) (proj TMain (log s))
    | Some t =>
        (exists rs,
            trun (args_of c i) rs (doCopy (args_of c i)) = Some (t, proj i (log s))) /\
        In (EvGo i) (proj TMain (log s))
    end;
  (* what sits in a channel was sent by its copier and is not yet received *)
  inv_slot : forall ch e, slot (shared s) ch = Some e ->
    In (EvSend ch e) (proj (ch_tid ch) (log s)) /\
    forall e', ~ In (EvRecv ch e') (proj TMain (log s));
  (* what was received was sent by the channel's copier *)
  inv_recv : forall ch e, In (EvRecv ch e) (proj TMain (log s)) ->
    In (EvSend ch e) (proj (ch_tid ch) (log s)) /\ slot (shared s) ch = None;
  (* what was sent sits in the channel or was received *)
  inv_sent : forall ch e, In (EvSend ch e) (proj (ch_tid ch) (log s)) ->
    slot (shared s) ch = Some e \/ In (EvRecv ch e) (proj TMain (log s));
  inv_stop : stop (shared s) = 0 \/ stop (shared s) = 1;
  inv_store : forall i v, In (i, EvStore v) (log s) -> v = 1 /\ stop (shared s) = 1;
  inv_load : forall i v, In (i, EvLoad v) (log s) ->
    v = 0 \/ (v = 1 /\ stop (shared s) = 1);
  inv_arm : forall i cn d, In (i, EvSetReadDeadline cn d) (log s) ->
    In (i, EvLoad 1) (log s) \/ In (i, EvStore 1) (log s);
  (* a read deadline armed during the call is a clock reading of the call
     plus copyTimeout *)
  inv_rdl : forall cn, (exists j d, In (j, EvSetReadDeadline cn d) (log s)) ->
    exists j tx, In (j, EvNow tx) (log s) /\
                 rdl (shared s) cn = Some (time_Add tx copyTimeout)
}.

(** ** Further vocabulary: byte counts, directions, sequences of effects *)

(** The bytes the reads of a trace returned, and the bytes its writes
    reported written. *)
Fixpoint bytes_read (evs : list event) : Z :=
  match evs with
  | [] => 0
  | EvRead _ nr _ :: evs' => nr + bytes_read evs'
  | _ :: evs' => bytes_read evs'
  end.

Fixpoint bytes_written (evs : list event) : Z :=
  match evs with
  | [] => 0
  | EvWrite _ _ nw _ :: evs' => nw + bytes_written evs'
  | _ :: evs' => bytes_written evs'
  end.

(** What an action of [doCopy] may touch: it reads [src] only, writes and
    arms write deadlines on [dst] only, arms read deadlines on [src] or
    [dst], stores 1 only, sends on [errCh] only, and neither receives nor
    starts a goroutine. *)
Definition well_directed (a : args) (ev : event) : Prop :=
  match ev with
  | EvLoad _ | EvNow _ => True
  | EvStore v => v = 1
  | EvSetReadDeadline c _ => c = src a \/ c = dst a
  | EvSetWriteDeadline c _ => c = dst a
  | EvRead c nr _ => c = src a /\ 0 <= nr <= buf a
  | EvWrite c n _ _ => c = dst a /\ 0 < n <= buf a
  | EvSend ch _ => ch = errCh a
  | EvRecv _ _ | EvGo _ => False
  end.

(** Passes in which the stop flag is loaded as [v] and the read returns no
    bytes and the error [er]: what the environment gives, and what the
    goroutine does. *)
Definition idle_resps (ps : list (Z * error)) : list resp :=
  flat_map (fun p => [RVal (fst p); RIO 0 (snd p)]) ps.

Definition idle_events (a : args) (ps : list (Z * error)) : list event :=
  flat_map (fun p => [EvLoad (fst p); EvRead (src a) 0 (snd p)]) ps.

(** The effects of a sequence of actions, in order; [None] when one of them
    cannot happen. *)
Fixpoint effects (w : world) (evs : list event) : option world :=
  match evs with
  | [] => Some w
  | ev :: evs' =>
      match effect w ev with
      | Some w' => effects w' evs'
      | None => None
      end
  end.

(** A goroutine that is still in the loop of [doCopy]. *)
Definition in_loop (t : thread) : Prop :=
  match t with
  | Loop _ => True
  | _ => False
  end.

(** * The configurable functions ([netx.go])

    The package keeps four functions in [atomic.Value] variables; the
    entry points load the function and call it.  A function is an external
    object, named by an identifier; what a call of it returns is the
    result of the entry point. *)


































(** ** isTimeout *)

Lemma length_app (p s : string) :
  String.length (p ++ s) = (String.length p + String.length s)%nat.
Proof. induction p as [|ch p IH]; simpl; [reflexivity | now rewrite IH]. Qed.

Lemma drop_app (p s : string) : drop (String.length p) (p ++ s) = s.
Proof. induction p as [|ch p IH]; simpl; [now destruct s | exact IH]. Qed.

Lemma drop_split (n : nat) (s : string) :
  (n <= String.length s)%nat -> exists p, s = (p ++ drop n s)%string.
Proof.
  revert s; induction n as [|n IH]; intros s Hn.
  - exists EmptyString. reflexivity.
  - destruct s as [|ch s]; simpl in Hn; [lia|].
    destruct (IH s) as [p Hp]; [lia|].
    exists (String ch p). simpl. now rewrite <- Hp.
Qed.

Lemma isTimeout_total (err : error) (es : string) :
  Error err = Some es ->
  isTimeout err =
  Some ((ioTimeoutLength <=? len es) &&
        String.eqb (drop (Z.to_nat (len es - ioTimeoutLength)) es) ioTimeout).
Proof.
  intros He. unfold isTimeout. rewrite He. cbv zeta.
  destruct (ioTimeoutLength <=? len es) eqn:Hl; [|reflexivity].
  unfold slice_from.
  apply Z.leb_le in Hl. unfold ioTimeoutLength in *.
  replace ((0 <=? len es - 11) && (len es - 11 <=? len es)) with true.
  - reflexivity.
  - symmetry. apply andb_true_iff. split; apply Z.leb_le; lia.
Qed.

Lemma isTimeout_true_iff (err : error) (es : string) :
  Error err = Some es ->
  (isTimeout err = Some true <->
   (11 <= String.length es)%nat /\ has_suffix es ioTimeout).
Proof.
  intros He. rewrite (isTimeout_total err es He). unfold ioTimeoutLength, len.
  split.
  - intros H. injection H as H. apply andb_true_iff in H. destruct H as [Hl Hs].
    apply Z.leb_le in Hl. apply String.eqb_eq in Hs.
    split; [lia|].
    destruct (drop_split (Z.to_nat (Z.of_nat (String.length es) - 11)) es) as [p Hp];
      [lia|].
    exists p. now rewrite <- Hs.
  - intros [Hl [p Hp]]. f_equal. apply andb_true_iff. split.
    + apply Z.leb_le. lia.
    + apply String.eqb_eq. subst es. rewrite length_app.
      replace (Z.to_nat (Z.of_nat (String.length p + String.length ioTimeout) - 11))
        with (String.length p) by (simpl; lia).
      apply drop_app.
Qed.

(** C9: for an error [err] with text [es] (any non-nil error), [isTimeout]
    returns, without panicking, and returns true exactly when [es] has at
    least 11 bytes and ends with "i/o timeout"; it returns false when [es]
    has fewer than 11 bytes. *)
Theorem isTimeout_suffix (err : error) (es : string) :
  Error err = Some es ->
  (isTimeout err = Some true <->
   (11 <= String.length es)%nat /\ has_suffix es "i/o timeout") /\
  (isTimeout err = Some true \/ isTimeout err = Some false) /\
  ((String.length es < 11)%nat -> isTimeout err = Some false).
Proof.
  intros He. split; [exact (isTimeout_true_iff err es He)|].
  rewrite (isTimeout_total err es He). split.
  - destruct (_ && _); auto.
  - intros Hl. replace (ioTimeoutLength <=? len es) with false; [reflexivity|].
    symmetry. apply Z.leb_gt. unfold ioTimeoutLength, len. lia.
Qed.

Lemma isTimeout_suffix_witness :
  isTimeout (Errorf "read tcp 10.0.0.1:80: i/o timeout") = Some true.
Proof.
  apply (proj2 (proj1 (isTimeout_suffix
                         (Errorf "read tcp 10.0.0.1:80: i/o timeout")
                         "read tcp 10.0.0.1:80: i/o timeout" eq_refl))).
  split; [simpl; lia|].
  exists "read tcp 10.0.0.1:80: "%string. reflexivity.
Defined.

(** ** Runs of one goroutine *)

#[local] Arguments time_Add : simpl never.
#[local] Arguments copyTimeout : simpl never.

Lemma isTimeout_EOF : isTimeout EOF = Some false.
Proof. reflexivity. Qed.

Lemma isTimeout_ErrShortWrite : isTimeout ErrShortWrite = Some false.
Proof. reflexivity. Qed.

#[local] Arguments isTimeout : simpl never.

Lemma ptrace_inv {R : Type} (p q : prog R) (tr : list event) :
  ptrace p tr q ->
  (tr = [] /\ q = p) \/
  (exists r ev p' tr', pstep p r = Some (ev, p') /\ tr = ev :: tr' /\ ptrace p' tr' q).
Proof.
  intros H. destruct H as [p | p r ev p' tr q Hs Ht].
  - left. split; reflexivity.
  - right. exists r, ev, p', tr. repeat split; assumption.
Qed.

Lemma ptrace_snoc {R : Type} (p q q' : prog R) (tr : list event) (r : resp) (ev : event) :
  ptrace p tr q -> pstep q r = Some (ev, q') -> ptrace p (tr ++ [ev]) q'.
Proof.
  intros H Hs. induction H as [p | p r0 ev0 p' tr q Hs0 Ht IH].
  - simpl. eapply ptrace_cons; [exact Hs | apply ptrace_nil].
  - simpl. eapply ptrace_cons; [exact Hs0 | apply IH; exact Hs].
Qed.

(** Unfolds one level of a [ptrace] from a known piece of code, splitting on
    the tests the code makes. *)
Ltac expose H :=
  unfold classify in H; cbn in H;
  repeat match type of H with
         | ptrace (bind (if ?c then _ else _) _) _ _ => destruct c eqn:?; cbn in H
         | ptrace (if negb (?x =? ?y) then _ else _) _ _ =>
             destruct (x =? y) eqn:?; cbn in H
         | ptrace (if is_EOF ?e then _ else _) _ _ =>
             is_var e; destruct e; cbn in H;
             rewrite ?isTimeout_EOF, ?isTimeout_ErrShortWrite in H
         | ptrace (match isTimeout ?e with _ => _ end) _ _ =>
             destruct (isTimeout e) as [[|]|] eqn:?; cbn in H
         | ptrace (if ?c then _ else _) _ _ => destruct c eqn:?; cbn in H
         end.

Ltac explore H leaf :=
  expose H;
  let r := fresh "r" in
  let ev := fresh "ev" in
  let p' := fresh "p" in
  let tr' := fresh "tr" in
  let Hs := fresh "Hs" in
  apply ptrace_inv in H;
  destruct H as [[? ?] | (r & ev & p' & tr' & Hs & ? & H)]; subst;
  [ leaf
  | cbn in Hs; destruct r; try discriminate Hs;
    try match type of Hs with
        | (if ?c then _ else _) = _ => destruct c eqn:?; try discriminate Hs
        end;
    injection Hs as ? ?; subst; explore H leaf ].

Lemma continue_nil (a : args) (tr : list event) (e : error) :
  ptrace (loop_body a Nil) tr (Ret (Continue e)) -> e = Nil.
Proof.
  intros H. unfold loop_body in H.
  explore H ltac:(try discriminate; try congruence).
Qed.

Ltac zify_tests :=
  repeat match goal with
         | H : _ && _ = true |- _ => apply andb_true_iff in H; destruct H
         | H : (_ =? _) = true |- _ => apply Z.eqb_eq in H
         | H : (_ =? _) = false |- _ => apply Z.eqb_neq in H
         | H : (_ <? _) = true |- _ => apply Z.ltb_lt in H
         | H : (_ <? _) = false |- _ => apply Z.ltb_ge in H
         | H : (_ <=? _) = true |- _ => apply Z.leb_le in H
         | H : (_ <=? _) = false |- _ => apply Z.leb_gt in H
         end.

Lemma run_shape_start (a : args) : run_shape a (doCopy a) [].
Proof.
  apply (shape_loop a [] [] (loop_body a Nil)).
  - constructor.
  - apply ptrace_nil.
  - reflexivity.
Qed.

Lemma run_shape_step (a : args) (t t' : thread) (evs : list event) (r : resp) (ev : event) :
  run_shape a t evs -> tstep a t r = Some (ev, t') -> run_shape a t' (evs ++ [ev]).
Proof.
  intros Hs Ht.
  destruct Hs as [passes tr p Hf Hp Hr | passes last e tr p Hf Hl Hp Hr
                 | passes last e tr Hf Hl Hp]; simpl in Ht.
  - destruct (pstep p r) as [[ev0 p']|] eqn:Hstep; [|discriminate].
    injection Ht as ? ?; subst ev0 t'.
    pose proof (ptrace_snoc _ _ _ _ _ _ Hp Hstep) as Hp'.
    rewrite <- app_assoc.
    destruct p' as [[e|e]| | | | | | | | | | | ]; simpl;
      try (apply shape_loop; [assumption | assumption | reflexivity]).
    + pose proof (continue_nil _ _ _ Hp') as ->.
      replace (List.concat passes ++ tr ++ [ev])
        with (List.concat (passes ++ [tr ++ [ev]]) ++ []).
      * apply shape_loop; [|apply ptrace_nil|reflexivity].
        apply Forall_app. split; [assumption|]. constructor; [exact Hp'|constructor].
      * rewrite concat_app. simpl. now rewrite !app_nil_r.
    + replace (tr ++ [ev]) with ((tr ++ [ev]) ++ []) by apply app_nil_r.
      apply shape_defer with (e := e); [assumption | assumption | apply ptrace_nil | reflexivity].
  - destruct (pstep p r) as [[ev0 p']|] eqn:Hstep; [|discriminate].
    injection Ht as ? ?; subst ev0 t'.
    pose proof (ptrace_snoc _ _ _ _ _ _ Hp Hstep) as Hp'.
    rewrite <- !app_assoc.
    destruct p' as [[]| | | | | | | | | | | ]; simpl;
      try (apply shape_defer with (e := e); [assumption | assumption | assumption | reflexivity]).
    apply shape_exited with (e := e); assumption.
  - discriminate.
Qed.

Lemma trun_snoc (a : args) (rs : list resp) (r : resp) (t0 : thread) :
  trun a (rs ++ [r]) t0 =
  match trun a rs t0 with
  | Some (t, evs) =>
      match tstep a t r with
      | Some (ev, t') => Some (t', evs ++ [ev])
      | None => None
      end
  | None => None
  end.
Proof.
  revert t0. induction rs as [|r0 rs IH]; intros t0; simpl.
  - destruct (tstep a t0 r) as [[ev t']|]; reflexivity.
  - destruct (tstep a t0 r0) as [[ev0 t1]|]; [|reflexivity].
    rewrite IH. destruct (trun a rs t1) as [[t evs]|]; [|reflexivity].
    destruct (tstep a t r) as [[ev t']|]; reflexivity.
Qed.

Lemma trun_app (a : args) (rs1 rs2 : list resp) (t0 : thread) :
  trun a (rs1 ++ rs2) t0 =
  match trun a rs1 t0 with
  | Some (t, evs) =>
      match trun a rs2 t with
      | Some (t', evs') => Some (t', evs ++ evs')
      | None => None
      end
  | None => None
  end.
Proof.
  revert t0. induction rs1 as [|r0 rs IH]; intros t0; simpl.
  - destruct (trun a rs2 t0) as [[t' evs']|]; reflexivity.
  - destruct (tstep a t0 r0) as [[ev0 t1]|]; [|reflexivity].
    rewrite IH. destruct (trun a rs t1) as [[t evs]|]; [|reflexivity].
    destruct (trun a rs2 t) as [[t' evs']|]; reflexivity.
Qed.

(** Induction over the runs of a goroutine, one action at a time. *)
Lemma trun_invariant (a : args) (P : thread -> list event -> Prop) (t0 : thread) :
  P t0 [] ->
  (forall t evs r ev t',
      P t evs -> tstep a t r = Some (ev, t') -> P t' (evs ++ [ev])) ->
  forall rs t evs, trun a rs t0 = Some (t, evs) -> P t evs.
Proof.
  intros H0 Hstep rs. induction rs as [|r rs IH] using rev_ind; intros t evs Hrun.
  - simpl in Hrun. injection Hrun as <- <-. exact H0.
  - rewrite trun_snoc in Hrun.
    destruct (trun a rs t0) as [[t1 evs1]|]; [|discriminate].
    destruct (tstep a t1 r) as [[ev t2]|] eqn:Ht; [|discriminate].
    injection Hrun as <- <-.
    eapply Hstep; [apply IH; reflexivity | exact Ht].
Qed.

Lemma trun_shape (a : args) (rs : list resp) (t : thread) (evs : list event) :
  trun a rs (doCopy a) = Some (t, evs) -> run_shape a t evs.
Proof.
  apply (trun_invariant a (run_shape a)).
  - apply run_shape_start.
  - intros. eapply run_shape_step; eassumption.
Qed.

(** Resolves [Hs : pstep p r = Some (ev, p')] for a known [p]: fails the
    goal when [p] cannot do that, otherwise names the result. *)
Ltac run_pstep Hs :=
  cbn in Hs; try discriminate Hs;
  try match type of Hs with
      | context [match ?r with _ => _ end] => is_var r; destruct r; try discriminate Hs
      end;
  try match type of Hs with
      | (if ?c then _ else _) = _ => destruct c eqn:?; try discriminate Hs
      end;
  try (injection Hs as ? ?; subst).

(** Case analysis on where a run is, for a step [Hs] taken there. *)
Ltac locate Hshape Ht :=
  let passes := fresh "passes" in
  let last := fresh "last" in
  let e := fresh "e" in
  let tr := fresh "tr" in
  let p := fresh "p" in
  let Hf := fresh "Hf" in
  let Hl := fresh "Hl" in
  let Hp := fresh "Hp" in
  let Hr := fresh "Hr" in
  let Hs := fresh "Hs" in
  destruct Hshape as [passes tr p Hf Hp Hr | passes last e tr p Hf Hl Hp Hr
                     | passes last e tr Hf Hl Hp];
  simpl in Ht;
  [ destruct (pstep p _) as [[? ?]|] eqn:Hs; [|discriminate Ht];
    injection Ht as ? ?; subst;
    unfold loop_body in Hp; explore Hp ltac:(run_pstep Hs)
  | destruct (pstep p _) as [[? ?]|] eqn:Hs; [|discriminate Ht];
    injection Ht as ? ?; subst;
    unfold deferred in Hp; explore Hp ltac:(run_pstep Hs)
  | discriminate Ht ].

Lemma at_read (a : args) (t t' : thread) (evs : list event) (r : resp)
      (c : conn) (nr : Z) (er : error) :
  run_shape a t evs -> tstep a t r = Some (EvRead c nr er, t') ->
  c = src a /\ 0 <= nr <= buf a /\
  exists passes,
    Forall (full_pass a) passes /\
    ((exists v, v <> 1 /\ evs = List.concat passes ++ [EvLoad v]) \/
     (exists tn,
         evs = List.concat passes ++
               [EvLoad 1; EvNow tn;
                EvSetReadDeadline (src a) (time_Add tn copyTimeout)])).
Proof.
  intros Hshape Ht. locate Hshape Ht; zify_tests; subst.
  - split; [reflexivity|]. split; [lia|]. eexists. split; [eassumption|].
    right. eexists. reflexivity.
  - split; [reflexivity|]. split; [lia|]. eexists. split; [eassumption|].
    left. eexists. split; [eassumption|reflexivity].
Qed.

Lemma at_load (a : args) (t t' : thread) (evs : list event) (r : resp) (v : Z) :
  run_shape a t evs -> tstep a t r = Some (EvLoad v, t') ->
  t = doCopy a /\ r = RVal v.
Proof.
  intros Hshape Ht. locate Hshape Ht. split; reflexivity.
Qed.

Lemma at_write (a : args) (t t' : thread) (evs : list event) (r : resp)
      (c : conn) (n nw : Z) (ew : error) :
  run_shape a t evs -> tstep a t r = Some (EvWrite c n nw ew, t') ->
  c = dst a /\ 0 < n /\
  (exists pre er tw,
      evs = pre ++ [EvRead (src a) n er; EvNow tw;
                    EvSetWriteDeadline (dst a) (time_Add tw (writeTimeout a))]) /\
  (nw <> n -> t' = Defer (deferred a ErrShortWrite)).
Proof.
  intros Hshape Ht. locate Hshape Ht; zify_tests; subst.
  - split; [reflexivity|]. split; [lia|]. split.
    + exists (List.concat passes ++
              [EvLoad 1; EvNow v0; EvSetReadDeadline (src a) (time_Add v0 copyTimeout)]).
      eexists _, _. rewrite <- app_assoc. reflexivity.
    + intros Hne. cbn. apply Z.eqb_neq in Hne. rewrite Hne. reflexivity.
  - split; [reflexivity|]. split; [lia|]. split.
    + exists (List.concat passes ++ [EvLoad v]).
      eexists _, _. rewrite <- app_assoc. reflexivity.
    + intros Hne. cbn. apply Z.eqb_neq in Hne. rewrite Hne. reflexivity.
Qed.

Lemma at_send (a : args) (t t' : thread) (evs : list event) (r : resp)
      (ch : chan) (e : error) :
  run_shape a t evs -> tstep a t r = Some (EvSend ch e, t') ->
  ch = errCh a /\ t' = Exited /\
  exists pre tn,
    evs = pre ++ [EvStore 1; EvNow tn;
                  EvSetReadDeadline (dst a) (time_Add tn copyTimeout)].
Proof.
  intros Hshape Ht. locate Hshape Ht.
  split; [reflexivity|]. split; [reflexivity|].
  eexists _, _. rewrite app_assoc. reflexivity.
Qed.

Lemma at_store (a : args) (t t' : thread) (evs : list event) (r : resp) (v : Z) :
  run_shape a t evs -> tstep a t r = Some (EvStore v, t') ->
  v = 1 /\ exists e, t = Defer (deferred a e).
Proof.
  intros Hshape Ht. locate Hshape Ht.
  split; [reflexivity|]. eexists. reflexivity.
Qed.

Lemma at_arm (a : args) (t t' : thread) (evs : list event) (r : resp)
      (c : conn) (d : Z) :
  run_shape a t evs -> tstep a t r = Some (EvSetReadDeadline c d, t') ->
  exists pre tn,
    d = time_Add tn copyTimeout /\
    ((c = src a /\ evs = pre ++ [EvLoad 1; EvNow tn]) \/
     (c = dst a /\ evs = pre ++ [EvStore 1; EvNow tn])).
Proof.
  intros Hshape Ht. locate Hshape Ht; zify_tests; subst.
  - eexists _, _. split; [reflexivity|]. left. split; reflexivity.
  - eexists _, _. split; [reflexivity|]. right. split; [reflexivity|].
    rewrite app_assoc. reflexivity.
Qed.

Lemma exited_stuck (a : args) (rs : list resp) (t : thread) (evs : list event) :
  trun a rs Exited = Some (t, evs) -> t = Exited /\ evs = [].
Proof.
  destruct rs as [|r rs]; simpl; intros H; [|discriminate].
  injection H as <- <-. split; reflexivity.
Qed.

(** Once [doCopy] has returned with [e], the deferred function runs, and
    nothing else. *)
Lemma exits_with_deferred (a : args) (e : error) :
  exits_with a (Defer (deferred a e)) e.
Proof.
  split.
  - intros rs t' evs Hrun. unfold deferred_trace.
    destruct rs as [|[| | |] rs]; simpl in Hrun; try discriminate.
    { injection Hrun as <- <-. exists 0. eexists. reflexivity. }
    destruct rs as [|[|tn | |] rs]; simpl in Hrun; try discriminate.
    { injection Hrun as <- <-. exists 0. eexists. reflexivity. }
    destruct rs as [|[| | |] rs]; simpl in Hrun; try discriminate.
    { injection Hrun as <- <-. exists tn. eexists. reflexivity. }
    destruct rs as [|[| | |] rs]; simpl in Hrun; try discriminate.
    { injection Hrun as <- <-. exists tn. eexists. reflexivity. }
    destruct rs as [|r rs]; simpl in Hrun; [|discriminate].
    injection Hrun as <- <-. exists tn, []. reflexivity.
  - intros tn. reflexivity.
Qed.

Lemma snoc_split {A : Type} (l pre post : list A) (x y : A) :
  l ++ [x] = pre ++ y :: post ->
  (post = [] /\ l = pre /\ x = y) \/
  (exists post', post = post' ++ [x] /\ l = pre ++ y :: post').
Proof.
  intros H. destruct post as [|z post] using rev_ind.
  - left. apply app_inj_tail in H. destruct H as [-> ->]. repeat split.
  - right. clear IHpost. exists post.
    rewrite app_comm_cons, app_assoc in H.
    apply app_inj_tail in H. destruct H as [-> ->]. split; reflexivity.
Qed.

Lemma timeout_shaped_iff (er : error) :
  er <> Nil ->
  (isTimeout er = Some true <-> timeout_shaped er) /\
  (isTimeout er = Some false <-> ~ timeout_shaped er).
Proof.
  intros Hn.
  assert (He : exists es, Error er = Some es)
    by (destruct er; [congruence | eexists; reflexivity ..]).
  destruct He as [es He].
  pose proof (isTimeout_true_iff er es He) as Hiff.
  assert (Htot : isTimeout er = Some true \/ isTimeout er = Some false)
    by (rewrite (isTimeout_total er es He); destruct (_ && _); auto).
  assert (Hshape : isTimeout er = Some true <-> timeout_shaped er).
  { rewrite Hiff. split.
    - intros [_ Hs]. exists es. split; assumption.
    - intros [es' [He' [p Hp]]]. rewrite He in He'. injection He' as <-.
      split; [|exists p; exact Hp].
      subst es. rewrite length_app. simpl. lia. }
  split; [exact Hshape|].
  split.
  - intros Hf Hs. apply Hshape in Hs. congruence.
  - intros Hs. destruct Htot as [Ht|Hf]; [|exact Hf].
    apply Hshape in Ht. contradiction.
Qed.

Lemma isTimeout_some (er : error) : er <> Nil -> isTimeout er <> None.
Proof.
  intros Hn Hto.
  destruct er; [congruence | discriminate Hto | discriminate Hto |].
  rewrite (isTimeout_total (Errorf msg) msg eq_refl) in Hto. discriminate.
Qed.

(** One pass through the loop body, from line 43. *)
Lemma pass_outcome (a : args) (v tn nr : Z) (er : error) (tw nw : Z) (ew : error) :
  0 <= nr <= buf a ->
  trun a (iteration v tn nr er tw nw ew) (doCopy a) =
  Some (if (0 <? nr) && negb (nw =? nr)
        then Defer (deferred a ErrShortWrite)
        else resume a (classify (v =? 1) er Nil),
        pass_trace a v tn nr er tw nw ew).
Proof.
  intros Hnr.
  assert (Hg : (0 <=? nr) && (nr <=? buf a) = true)
    by (apply andb_true_iff; split; apply Z.leb_le; lia).
  unfold iteration, pass_trace, doCopy, loop_body.
  destruct (v =? 1) eqn:Hv; destruct (0 <? nr) eqn:Hpos; cbn;
    rewrite ?Hv; cbn; rewrite Hg; cbn; rewrite ?Hpos; cbn;
    try destruct (nw =? nr); reflexivity.
Qed.

Lemma classify_outcome (a : args) (stopping : bool) (er : error) :
  er <> Nil ->
  resume a (classify stopping er Nil) =
  if is_EOF er then Defer (deferred a Nil)
  else match isTimeout er with
       | Some true => if stopping then Defer (deferred a Nil) else doCopy a
       | Some false => Defer (deferred a er)
       | None => Loop Panic
       end.
Proof.
  intros Hn. unfold classify.
  destruct er; try congruence; cbn; try reflexivity.
  destruct (isTimeout (Errorf msg)) as [[|]|]; try destruct stopping; reflexivity.
Qed.

(** The pass of a read with a non-nil error whose bytes, if any, were
    written in full. *)
Lemma classified_pass (a : args) (v tn nr : Z) (er : error) (tw nw : Z) (ew : error) :
  0 <= nr <= buf a -> er <> Nil -> (0 < nr -> nw = nr) ->
  exists t',
    trun a (iteration v tn nr er tw nw ew) (doCopy a) =
      Some (t', pass_trace a v tn nr er tw nw ew) /\
    (er = EOF -> t' = Defer (deferred a Nil)) /\
    (er <> EOF -> timeout_shaped er -> v = 1 -> t' = Defer (deferred a Nil)) /\
    (er <> EOF -> timeout_shaped er -> v <> 1 -> t' = doCopy a) /\
    (er <> EOF -> ~ timeout_shaped er -> t' = Defer (deferred a er)).
Proof.
  intros Hnr Hne Hfull.
  rewrite pass_outcome by assumption.
  assert (Hsw : (0 <? nr) && negb (nw =? nr) = false).
  { destruct (0 <? nr) eqn:Hpos; [|reflexivity].
    apply Z.ltb_lt in Hpos. rewrite (Hfull Hpos), Z.eqb_refl. reflexivity. }
  rewrite Hsw, (classify_outcome a _ er Hne).
  eexists. split; [reflexivity|].
  destruct (timeout_shaped_iff er Hne) as [Ht Hf].
  destruct (is_EOF er) eqn:Heof.
  - assert (er = EOF) by (destruct er; try discriminate; reflexivity).
    repeat split; intros; try reflexivity; contradiction.
  - assert (er <> EOF) by (intros ->; discriminate).
    split; [intros; contradiction|].
    destruct (isTimeout er) as [[|]|] eqn:Hto.
    + assert (timeout_shaped er) by (apply Ht; reflexivity).
      split; [|split].
      * intros _ _ ->. reflexivity.
      * intros _ _ Hv. apply Z.eqb_neq in Hv. rewrite Hv. reflexivity.
      * intros _ Hns. contradiction.
    + assert (~ timeout_shaped er) by (apply Hf; reflexivity).
      split; [|split]; intros; try contradiction. reflexivity.
    + exfalso. exact (isTimeout_some er Hne Hto).
Qed.

Lemma exits_with_inj (a : args) (e e' : error) :
  exits_with a (Defer (deferred a e)) e' -> e = e'.
Proof.
  intros [_ H]. specialize (H 0). cbn in H. unfold deferred_trace in H.
  injection H as H. exact H.
Qed.

Lemma not_exits_at_top (a : args) (e : error) : ~ exits_with a (doCopy a) e.
Proof. intros [_ H]. specialize (H 0). discriminate H. Qed.

(** ** The loop of doCopy, pass by pass *)

(** C2: when a write returns [nw < n] for the [n] bytes just read from the
    source, [doCopy] returns at once with [io.ErrShortWrite]: the write was
    for the count of the preceding read, and all the goroutine still does is
    the deferred function, which sends [io.ErrShortWrite]; no read and no
    write follows. *)
Theorem short_write_terminates (a : args) (rs : list resp) (t t' : thread)
        (evs : list event) (r : resp) (c : conn) (n nw : Z) (ew : error) :
  trun a rs (doCopy a) = Some (t, evs) ->
  tstep a t r = Some (EvWrite c n nw ew, t') ->
  nw < n ->
  c = dst a /\
  (exists pre er tw,
      evs = pre ++ [EvRead (src a) n er; EvNow tw;
                    EvSetWriteDeadline (dst a) (time_Add tw (writeTimeout a))]) /\
  t' = Defer (deferred a ErrShortWrite) /\
  exits_with a t' ErrShortWrite.
Proof.
  intros Hrun Ht Hlt.
  destruct (at_write _ _ _ _ _ _ _ _ _ (trun_shape _ _ _ _ Hrun) Ht)
    as (Hc & _ & Hpre & Hshort).
  assert (Ht' : t' = Defer (deferred a ErrShortWrite)) by (apply Hshort; lia).
  split; [exact Hc|]. split; [exact Hpre|]. split; [exact Ht'|].
  subst t'. apply exits_with_deferred.
Qed.

Lemma short_write_terminates_witness :
  exits_with sample_args (Defer (deferred sample_args ErrShortWrite)) ErrShortWrite.
Proof.
  refine (proj2 (proj2 (proj2
    (short_write_terminates sample_args
       [RVal 0; RIO 3 Nil; RVal 10; RUnit]
       _ (Defer (deferred sample_args ErrShortWrite)) _
       (RIO 2 Nil) (dst sample_args) 3 2 Nil _ _ _)))).
  - reflexivity.
  - reflexivity.
  - lia.
Defined.

(** C3, as amended: a pass in which the read returns a non-nil error [er]
    and in which the bytes read, if any, were written in full ends as
    follows.  End-of-stream: [doCopy] returns nil.  A timeout-shaped [er]:
    [doCopy] returns nil when the stop flag was loaded as 1 in this pass,
    and otherwise the goroutine is back at the top of the loop, nothing
    reported.  Any other [er]: [doCopy] returns [er]. *)
Theorem read_error_classification (a : args) (rs : list resp) (t t1 : thread)
        (evs : list event) (v tn nr : Z) (er : error) (tw nw : Z) (ew : error) :
  trun a rs (doCopy a) = Some (t, evs) ->
  tstep a t (RVal v) = Some (EvLoad v, t1) ->
  0 <= nr <= buf a -> er <> Nil -> (0 < nr -> nw = nr) ->
  exists t',
    trun a (iteration v tn nr er tw nw ew) t =
      Some (t', pass_trace a v tn nr er tw nw ew) /\
    (er = EOF -> exits_with a t' Nil) /\
    (er <> EOF -> timeout_shaped er -> v = 1 -> exits_with a t' Nil) /\
    (er <> EOF -> timeout_shaped er -> v <> 1 -> t' = doCopy a) /\
    (er <> EOF -> ~ timeout_shaped er -> exits_with a t' er).
Proof.
  intros Hrun Htop Hnr Hne Hfull.
  destruct (at_load _ _ _ _ _ _ (trun_shape _ _ _ _ Hrun) Htop) as [-> _].
  destruct (classified_pass a v tn nr er tw nw ew Hnr Hne Hfull)
    as (t' & Hpass & Heof & Hstop & Hcont & Hfatal).
  exists t'. split; [exact Hpass|].
  split; [|split; [|split]].
  - intros H. rewrite (Heof H). apply exits_with_deferred.
  - intros H1 H2 H3. rewrite (Hstop H1 H2 H3). apply exits_with_deferred.
  - exact Hcont.
  - intros H1 H2. rewrite (Hfatal H1 H2). apply exits_with_deferred.
Qed.

Lemma read_error_classification_witness :
  exists t',
    trun sample_args (iteration 1 7 0 (Errorf "read tcp: i/o timeout") 0 0 Nil)
         (doCopy sample_args) =
      Some (t', pass_trace sample_args 1 7 0 (Errorf "read tcp: i/o timeout") 0 0 Nil) /\
    exits_with sample_args t' Nil.
Proof.
  edestruct read_error_classification
    with (a := sample_args) (rs := @nil resp) (v := 1) (tn := 7) (nr := 0)
         (er := Errorf "read tcp: i/o timeout") (tw := 0) (nw := 0) (ew := Nil)
    as (t' & Hpass & _ & Hstop & _).
  - reflexivity.
  - reflexivity.
  - cbn. lia.
  - discriminate.
  - lia.
  - exists t'. split; [exact Hpass|]. apply Hstop.
    + discriminate.
    + exists "read tcp: i/o timeout"%string. split; [reflexivity|].
      exists "read tcp: "%string. reflexivity.
    + reflexivity.
Defined.

(** The bytes of a read that came with end-of-stream are written short,
    the write timing out after two of three: [doCopy] returns
    [io.ErrShortWrite], not nil. *)
Lemma eof_read_short_write_counterexample :
  trun sample_args
       (iteration 0 0 3 EOF 10 2 (Errorf "write tcp: i/o timeout") ++
        [RUnit; RVal 20; RUnit; RUnit])
       (doCopy sample_args) =
  Some (Exited,
        [EvLoad 0; EvRead 1%nat 3 EOF;
         EvNow 10; EvSetWriteDeadline 0%nat 5000000010;
         EvWrite 0%nat 3 2 (Errorf "write tcp: i/o timeout");
         EvStore 1; EvNow 20; EvSetReadDeadline 0%nat 1000000020;
         EvSend OutErrCh ErrShortWrite]) /\
  EOF <> Nil /\ ErrShortWrite <> Nil.
Proof. split; [reflexivity|]. split; discriminate. Qed.

(** C1, as amended: a read error that is not nil, not end-of-stream and
    not timeout-shaped, when the bytes read with it (if any) were written in
    full, makes [doCopy] return that very error; and a write that returns
    fewer bytes than it was given makes [doCopy] return [io.ErrShortWrite],
    whatever error the write itself returned. *)
Theorem io_failure_is_fatal (a : args) (rs : list resp) (t t1 : thread)
        (evs : list event) (v tn nr : Z) (er : error) (tw nw : Z) (ew : error) :
  trun a rs (doCopy a) = Some (t, evs) ->
  tstep a t (RVal v) = Some (EvLoad v, t1) ->
  0 <= nr <= buf a ->
  exists t',
    trun a (iteration v tn nr er tw nw ew) t =
      Some (t', pass_trace a v tn nr er tw nw ew) /\
    (er <> Nil -> er <> EOF -> ~ timeout_shaped er -> (0 < nr -> nw = nr) ->
     exits_with a t' er) /\
    (0 < nr -> nw < nr -> exits_with a t' ErrShortWrite).
Proof.
  intros Hrun Htop Hnr.
  destruct (at_load _ _ _ _ _ _ (trun_shape _ _ _ _ Hrun) Htop) as [-> _].
  pose proof (pass_outcome a v tn nr er tw nw ew Hnr) as Hout.
  eexists. split; [exact Hout|]. split.
  - intros Hne Heof Hns Hfull.
    destruct (classified_pass a v tn nr er tw nw ew Hnr Hne Hfull)
      as (t' & Hpass & _ & _ & _ & Hfatal).
    rewrite Hout in Hpass. injection Hpass as Heq. rewrite Heq.
    rewrite (Hfatal Heof Hns). apply exits_with_deferred.
  - intros Hpos Hlt.
    apply Z.ltb_lt in Hpos. rewrite Hpos.
    assert (Hneq : (nw =? nr) = false) by (apply Z.eqb_neq; lia).
    rewrite Hneq. apply exits_with_deferred.
Qed.

Lemma io_failure_is_fatal_witness :
  exists t',
    trun sample_args (iteration 0 0 0 (Errorf "connection reset by peer") 0 0 Nil)
         (doCopy sample_args) =
      Some (t', pass_trace sample_args 0 0 0 (Errorf "connection reset by peer") 0 0 Nil) /\
    exits_with sample_args t' (Errorf "connection reset by peer").
Proof.
  edestruct io_failure_is_fatal
    with (a := sample_args) (rs := @nil resp) (v := 0) (tn := 0) (nr := 0)
         (er := Errorf "connection reset by peer") (tw := 0) (nw := 0) (ew := Nil)
    as (t' & Hpass & Hread & _).
  - reflexivity.
  - reflexivity.
  - cbn. lia.
  - exists t'. split; [exact Hpass|]. apply Hread.
    + discriminate.
    + discriminate.
    + intros Hs.
      assert (Hne : Errorf "connection reset by peer" <> Nil) by discriminate.
      pose proof (proj2 (proj1 (timeout_shaped_iff _ Hne)) Hs) as Hto.
      vm_compute in Hto. discriminate Hto.
    + lia.
Defined.

(** A write that fails with a non-timeout error after one byte of three:
    [doCopy] returns [io.ErrShortWrite], not the error of the write. *)
Lemma write_error_not_verbatim_counterexample :
  trun sample_args
       (iteration 0 0 3 Nil 10 1 (Errorf "write: broken pipe") ++
        [RUnit; RVal 20; RUnit; RUnit])
       (doCopy sample_args) =
  Some (Exited,
        [EvLoad 0; EvRead 1%nat 3 Nil;
         EvNow 10; EvSetWriteDeadline 0%nat 5000000010;
         EvWrite 0%nat 3 1 (Errorf "write: broken pipe");
         EvStore 1; EvNow 20; EvSetReadDeadline 0%nat 1000000020;
         EvSend OutErrCh ErrShortWrite]) /\
  isTimeout (Errorf "write: broken pipe") = Some false /\
  ErrShortWrite <> Errorf "write: broken pipe".
Proof. split; [reflexivity|]. split; [reflexivity | discriminate]. Qed.

Lemma return_provenance (a : args) (last : list event) (e : error) :
  ptrace (loop_body a Nil) last (Ret (Return e)) ->
  e = Nil \/ e = ErrShortWrite \/ exists nr, In (EvRead (src a) nr e) last.
Proof.
  intros H. unfold loop_body in H.
  explore H ltac:(try discriminate;
                  repeat match goal with
                         | E : Ret _ = Ret _ |- _ => injection E as ?; subst
                         end;
                  cbn; eauto 12).
Qed.

Lemma at_send_provenance (a : args) (t t' : thread) (evs : list event) (r : resp)
      (ch : chan) (e : error) :
  run_shape a t evs -> tstep a t r = Some (EvSend ch e, t') ->
  e = Nil \/ e = ErrShortWrite \/ exists nr, In (EvRead (src a) nr e) evs.
Proof.
  intros Hshape Ht. locate Hshape Ht.
  match goal with
  | H : ptrace (loop_body _ _) _ (Ret (Return _)) |- _ =>
      apply return_provenance in H; destruct H as [H | [H | [nr H]]];
        [ left; exact H | right; left; exact H | ];
        right; right; exists nr;
        apply in_or_app; right; apply in_or_app; left; exact H
  end.
Qed.

(** In every run, a send is the last action, and what it sends is nil,
    [io.ErrShortWrite] or the error of one of the reads. *)
Lemma reported_error_provenance (a : args) (rs : list resp) (t : thread)
      (evs : list event) :
  trun a rs (doCopy a) = Some (t, evs) ->
  forall pre ch e post,
    evs = pre ++ EvSend ch e :: post ->
    post = [] /\ t = Exited /\
    (e = Nil \/ e = ErrShortWrite \/ exists nr, In (EvRead (src a) nr e) pre).
Proof.
  intros Hrun.
  cut (run_shape a t evs /\
       forall pre ch e post,
         evs = pre ++ EvSend ch e :: post ->
         post = [] /\ t = Exited /\
         (e = Nil \/ e = ErrShortWrite \/ exists nr, In (EvRead (src a) nr e) pre));
    [intros [_ H]; exact H|].
  revert rs t evs Hrun. apply trun_invariant.
  - split; [apply run_shape_start|].
    intros pre ch e post H. destruct pre; discriminate H.
  - intros t evs r ev t' [Hshape IH] Ht.
    split; [eapply run_shape_step; eassumption|].
    intros pre ch e post Heq.
    apply snoc_split in Heq. destruct Heq as [(-> & -> & ->) | (post' & -> & ->)].
    + split; [reflexivity|].
      destruct (at_send _ _ _ _ _ _ _ Hshape Ht) as (_ & -> & _).
      split; [reflexivity|].
      exact (at_send_provenance _ _ _ _ _ _ _ Hshape Ht).
    + destruct (IH _ _ _ _ eq_refl) as (_ & -> & _). discriminate Ht.
Qed.

(** C10, as amended: a write that returns all [nr] bytes together with a
    non-nil error [ew] leaves the goroutine exactly where a write without
    error leaves it: the error is dropped, and the pass goes on to the read
    error [er].  With [er] nil, or timeout-shaped while the stop flag was not
    loaded as 1, the goroutine is back at the top of the loop; if the pass
    ends the loop, [doCopy] returns nil or [er].  In no run is
    the reported error taken from a write: it is nil, [io.ErrShortWrite] or
    the error of a read. *)
Theorem full_write_error_discarded (a : args) (rs : list resp) (t : thread)
        (evs : list event) :
  trun a rs (doCopy a) = Some (t, evs) ->
  (forall v t1 tn nr er tw ew,
      tstep a t (RVal v) = Some (EvLoad v, t1) ->
      0 < nr <= buf a -> ew <> Nil ->
      exists t',
        trun a (iteration v tn nr er tw nr ew) t =
          Some (t', pass_trace a v tn nr er tw nr ew) /\
        trun a (iteration v tn nr er tw nr Nil) t =
          Some (t', pass_trace a v tn nr er tw nr Nil) /\
        (er = Nil -> t' = doCopy a) /\
        (timeout_shaped er -> v <> 1 -> t' = doCopy a) /\
        (forall e, exits_with a t' e -> e = Nil \/ e = er)) /\
  (forall pre ch e post,
      evs = pre ++ EvSend ch e :: post ->
      e = Nil \/ e = ErrShortWrite \/ exists nr, In (EvRead (src a) nr e) pre).
Proof.
  intros Hrun. split.
  - intros v t1 tn nr er tw ew Htop Hnr Hew.
    destruct (at_load _ _ _ _ _ _ (trun_shape _ _ _ _ Hrun) Htop) as [-> _].
    assert (Hnr' : 0 <= nr <= buf a) by lia.
    rewrite !pass_outcome by assumption.
    assert (Hpos : (0 <? nr) = true) by (apply Z.ltb_lt; lia).
    rewrite Hpos, Z.eqb_refl. cbn [andb negb].
    eexists. split; [reflexivity|]. split; [reflexivity|]. split; [|split].
    + intros ->. reflexivity.
    + intros Hs Hv.
      assert (Hne : er <> Nil) by (intros ->; destruct Hs as (es & He & _); discriminate He).
      apply (proj1 (timeout_shaped_iff er Hne)) in Hs.
      rewrite (classify_outcome a _ er Hne), Hs.
      apply Z.eqb_neq in Hv. rewrite Hv.
      destruct er; try reflexivity. discriminate Hs.
    + intros e He. destruct er.
      * exfalso. exact (not_exits_at_top a e He).
      * left. symmetry. exact (exits_with_inj a Nil e He).
      * rewrite classify_outcome in He by discriminate. cbn in He.
        rewrite isTimeout_ErrShortWrite in He.
        right. symmetry. exact (exits_with_inj a _ e He).
      * rewrite classify_outcome in He by discriminate. cbn in He.
        destruct (isTimeout (Errorf msg)) as [[|]|] eqn:Hto.
        -- destruct (v =? 1).
           ++ left. symmetry. exact (exits_with_inj a Nil e He).
           ++ exfalso. exact (not_exits_at_top a e He).
        -- right. symmetry. exact (exits_with_inj a _ e He).
        -- exfalso. apply (isTimeout_some (Errorf msg)); [discriminate | exact Hto].
  - intros pre ch e post Heq.
    exact (proj2 (proj2 (reported_error_provenance a rs t evs Hrun pre ch e post Heq))).
Qed.

Lemma full_write_error_discarded_witness :
  exists t',
    trun sample_args (iteration 0 0 3 Nil 10 3 (Errorf "write: broken pipe"))
         (doCopy sample_args) =
      Some (t', pass_trace sample_args 0 0 3 Nil 10 3 (Errorf "write: broken pipe")) /\
    t' = doCopy sample_args.
Proof.
  destruct (proj1 (full_write_error_discarded sample_args [] (doCopy sample_args) []
                     eq_refl)
              0 _ 0 3 Nil 10 (Errorf "write: broken pipe") eq_refl)
    as (t' & Hpass & _ & Htop & _).
  - cbn. lia.
  - discriminate.
  - exists t'. split; [exact Hpass | exact (Htop eq_refl)].
Defined.

(** The three bytes of a read that came with end-of-stream are written in
    full, the write returning an error as well: the loop does not go on to
    another read, [doCopy] returns nil. *)
Lemma full_write_error_counterexample :
  trun sample_args
       (iteration 0 0 3 EOF 10 3 (Errorf "write: broken pipe") ++
        [RUnit; RVal 20; RUnit; RUnit])
       (doCopy sample_args) =
  Some (Exited,
        [EvLoad 0; EvRead 1%nat 3 EOF;
         EvNow 10; EvSetWriteDeadline 0%nat 5000000010;
         EvWrite 0%nat 3 3 (Errorf "write: broken pipe");
         EvStore 1; EvNow 20; EvSetReadDeadline 0%nat 1000000020;
         EvSend OutErrCh Nil]) /\
  Errorf "write: broken pipe" <> Nil.
Proof. split; [reflexivity | discriminate]. Qed.

(** In every run of [doCopy], the send of the terminal error is the last
    action and comes right after the store of 1 into the stop flag and the
    arming of the read deadline of [dst]; and whatever action leaves the
    loop, the deferred function is what runs next. *)
Lemma doCopy_report_last (a : args) (rs : list resp) (t : thread)
        (evs : list event) :
  trun a rs (doCopy a) = Some (t, evs) ->
  (forall pre ch e post,
      evs = pre ++ EvSend ch e :: post ->
      ch = errCh a /\ post = [] /\ t = Exited /\
      exists pre' tn,
        pre = pre' ++ [EvStore 1; EvNow tn;
                       EvSetReadDeadline (dst a) (time_Add tn copyTimeout)]) /\
  (forall r ev t',
      tstep a t r = Some (ev, t') ->
      (exists p, t = Loop p) -> (forall p', t' <> Loop p') ->
      exists e, t' = Defer (deferred a e) /\ exits_with a t' e).
Proof.
  intros Hrun. split.
  - revert rs t evs Hrun.
    cut (forall rs t evs, trun a rs (doCopy a) = Some (t, evs) ->
           run_shape a t evs /\
           forall pre ch e post,
             evs = pre ++ EvSend ch e :: post ->
             ch = errCh a /\ post = [] /\ t = Exited /\
             exists pre' tn,
               pre = pre' ++ [EvStore 1; EvNow tn;
                              EvSetReadDeadline (dst a) (time_Add tn copyTimeout)]).
    { intros H rs t evs Hrun. exact (proj2 (H rs t evs Hrun)). }
    apply trun_invariant.
    + split; [apply run_shape_start|].
      intros pre ch e post H. destruct pre; discriminate H.
    + intros t evs r ev t' [Hshape IH] Ht.
      split; [eapply run_shape_step; eassumption|].
      intros pre ch e post Heq.
      apply snoc_split in Heq. destruct Heq as [(-> & -> & ->) | (post' & -> & ->)].
      * destruct (at_send _ _ _ _ _ _ _ Hshape Ht) as (-> & -> & Hpre).
        repeat split. exact Hpre.
      * destruct (IH _ _ _ _ eq_refl) as (_ & _ & -> & _). discriminate Ht.
  - intros r ev t' Ht [p ->] Hout. simpl in Ht.
    destruct (pstep p r) as [[ev0 p']|]; [|discriminate].
    injection Ht as _ <-.
    destruct p' as [[e|e]| | | | | | | | | | | ]; simpl in *;
      try (exfalso; eapply Hout; reflexivity).
    exists e. split; [reflexivity | apply exits_with_deferred].
Qed.

(** In every run of [doCopy], each read is on [src] and follows the load
    of the stop flag that opens its pass through the loop, directly or, when
    the load returned 1, after the arming of the read deadline of [src]. *)
Lemma doCopy_read_after_load (a : args) (rs : list resp) (t : thread)
        (evs : list event) :
  trun a rs (doCopy a) = Some (t, evs) ->
  forall pre c nr er post,
    evs = pre ++ EvRead c nr er :: post ->
    c = src a /\
    exists passes,
      Forall (full_pass a) passes /\
      ((exists v, v <> 1 /\ pre = List.concat passes ++ [EvLoad v]) \/
       (exists tn,
           pre = List.concat passes ++
                 [EvLoad 1; EvNow tn;
                  EvSetReadDeadline (src a) (time_Add tn copyTimeout)])).
Proof.
  revert rs t evs.
  cut (forall rs t evs, trun a rs (doCopy a) = Some (t, evs) ->
         run_shape a t evs /\
         forall pre c nr er post,
           evs = pre ++ EvRead c nr er :: post ->
           c = src a /\
           exists passes,
             Forall (full_pass a) passes /\
             ((exists v, v <> 1 /\ pre = List.concat passes ++ [EvLoad v]) \/
              (exists tn,
                  pre = List.concat passes ++
                        [EvLoad 1; EvNow tn;
                         EvSetReadDeadline (src a) (time_Add tn copyTimeout)]))).
  { intros H rs t evs Hrun. exact (proj2 (H rs t evs Hrun)). }
  apply trun_invariant.
  - split; [apply run_shape_start|].
    intros pre c nr er post H. destruct pre; discriminate H.
  - intros t evs r ev t' [Hshape IH] Ht.
    split; [eapply run_shape_step; eassumption|].
    intros pre c nr er post Heq.
    apply snoc_split in Heq. destruct Heq as [(-> & -> & ->) | (post' & -> & ->)].
    + destruct (at_read _ _ _ _ _ _ _ _ Hshape Ht) as (Hc & _ & Hpre).
      split; assumption.
    + exact (IH _ _ _ _ _ eq_refl).
Qed.

(** ** Runs of a BidiCopy call *)

Lemma error_eqb_eq (e e' : error) : error_eqb e e' = true <-> e = e'.
Proof.
  destruct e, e'; simpl; split; intros H; try reflexivity; try discriminate.
  - apply String.eqb_eq in H. now subst.
  - injection H as ->. apply String.eqb_refl.
Qed.

Lemma proj_app (i : tid) (l l' : list (tid * event)) :
  proj i (l ++ l') = proj i l ++ proj i l'.
Proof.
  induction l as [|[j ev] l IH]; simpl; [reflexivity|].
  destruct i, j; simpl; rewrite IH; reflexivity.
Qed.

Lemma proj_snoc_same (i : tid) (l : list (tid * event)) (ev : event) :
  proj i (l ++ [(i, ev)]) = proj i l ++ [ev].
Proof. rewrite proj_app. destruct i; reflexivity. Qed.

Lemma proj_snoc_other (i j : tid) (l : list (tid * event)) (ev : event) :
  i <> j -> proj i (l ++ [(j, ev)]) = proj i l.
Proof.
  intros H. rewrite proj_app.
  destruct i, j; simpl; try apply app_nil_r; congruence.
Qed.

Lemma proj_In (i : tid) (l : list (tid * event)) (ev : event) :
  In ev (proj i l) <-> In (i, ev) l.
Proof.
  induction l as [|[j ev'] l IH]; simpl; [tauto|].
  destruct i, j; simpl; rewrite IH; intuition congruence.
Qed.

Lemma exec_invariant (P : sys -> Prop) :
  (forall s m s', P s -> step s m = Some s' -> P s') ->
  forall ms s0 s, P s0 -> exec ms s0 = Some s -> P s.
Proof.
  intros Hstep ms. induction ms as [|m ms IH]; intros s0 s H0 Hrun; simpl in Hrun.
  - injection Hrun as <-. exact H0.
  - destruct (step s0 m) as [s1|] eqn:Hs; [|discriminate].
    eapply IH; [|exact Hrun]. eapply Hstep; eassumption.
Qed.

Lemma exec_cons (m : tid * resp) (ms : list (tid * resp)) (s : sys) :
  exec (m :: ms) s =
  match step s m with
  | Some s' => exec ms s'
  | None => None
  end.
Proof. reflexivity. Qed.

Lemma exec_app (ms ms' : list (tid * resp)) (s : sys) :
  exec (ms ++ ms') s =
  match exec ms s with
  | Some s' => exec ms' s'
  | None => None
  end.
Proof.
  revert s. induction ms as [|m ms IH]; intros s; simpl; [reflexivity|].
  destruct (step s m); [apply IH | reflexivity].
Qed.

(** What a step of a copier is. *)
Lemma step_copier (s s' : sys) (i : tid) (r : resp) :
  i = TOut \/ i = TIn ->
  step s (i, r) = Some s' ->
  exists t ev t',
    thread_of s i = Some t /\
    tstep (args_of (params s) i) t r = Some (ev, t') /\
    effect (shared s) ev = Some (shared s') /\
    params s' = params s /\ gmain s' = gmain s /\
    thread_of s' i = Some t' /\
    thread_of s' (other i) = thread_of s (other i) /\
    log s' = log s ++ [(i, ev)].
Proof.
  intros [-> | ->] H; simpl in H.
  - destruct (gout s) as [t|] eqn:Ht; [|discriminate].
    destruct (tstep (args_out (params s)) t r) as [[ev t']|] eqn:Hs; [|discriminate].
    destruct (effect (shared s) ev) as [w'|] eqn:He; [|discriminate].
    injection H as <-. exists t, ev, t'. simpl. repeat split; assumption.
  - destruct (gin s) as [t|] eqn:Ht; [|discriminate].
    destruct (tstep (args_in (params s)) t r) as [[ev t']|] eqn:Hs; [|discriminate].
    destruct (effect (shared s) ev) as [w'|] eqn:He; [|discriminate].
    injection H as <-. exists t, ev, t'. simpl. repeat split; assumption.
Qed.

(** What a step of the caller's goroutine is. *)
Lemma step_main (s s' : sys) (r : resp) :
  step s (TMain, r) = Some s' ->
  exists ev p',
    pstep (gmain s) r = Some (ev, p') /\
    effect (shared s) ev = Some (shared s') /\
    params s' = params s /\ gmain s' = p' /\
    log s' = log s ++ [(TMain, ev)] /\
    gout s' = match ev with
              | EvGo TOut => Some (doCopy (args_out (params s)))
              | _ => gout s
              end /\
    gin s' = match ev with
             | EvGo TIn => Some (doCopy (args_in (params s)))
             | _ => gin s
             end.
Proof.
  intros H. simpl in H.
  destruct (pstep (gmain s) r) as [[ev p']|] eqn:Hs; [|discriminate].
  destruct (effect (shared s) ev) as [w'|] eqn:He; [|discriminate].
  injection H as <-. exists ev, p'.
  destruct ev as [| | | | | | | | |[| |]]; simpl; repeat split; assumption.
Qed.

Lemma slot_set_same (w : world) (ch : chan) (v : option error) :
  slot (set_slot w ch v) ch = v.
Proof. destruct ch; reflexivity. Qed.

Lemma slot_set_other (w : world) (ch ch' : chan) (v : option error) :
  ch <> ch' -> slot (set_slot w ch v) ch' = slot w ch'.
Proof. destruct ch, ch'; simpl; congruence. Qed.

Lemma stop_set_slot (w : world) (ch : chan) (v : option error) :
  stop (set_slot w ch v) = stop w.
Proof. destruct ch; reflexivity. Qed.

Lemma effect_send (w w' : world) (ch : chan) (e : error) :
  effect w (EvSend ch e) = Some w' ->
  slot w ch = None /\ w' = set_slot w ch (Some e).
Proof.
  simpl. destruct (slot w ch); [discriminate|].
  intros H. injection H as <-. split; reflexivity.
Qed.

Lemma effect_recv (w w' : world) (ch : chan) (e : error) :
  effect w (EvRecv ch e) = Some w' ->
  slot w ch = Some e /\ w' = set_slot w ch None.
Proof.
  simpl. destruct (slot w ch) as [e'|]; [|discriminate].
  destruct (error_eqb e e') eqn:He; [|discriminate].
  apply error_eqb_eq in He. subst e'.
  intros H. injection H as <-. split; reflexivity.
Qed.

Lemma effect_slot (w w' : world) (ev : event) (ch : chan) :
  effect w ev = Some w' ->
  (forall e, ev <> EvSend ch e) -> (forall e, ev <> EvRecv ch e) ->
  slot w' ch = slot w ch.
Proof.
  intros H Hs Hr. destruct ev; simpl in H;
    try (injection H as <-; destruct ch; reflexivity).
  - destruct (v =? stop w); [|discriminate]. injection H as <-. reflexivity.
  - destruct (slot w ch0); [discriminate|]. injection H as <-.
    apply slot_set_other. intros ->. apply (Hs e). reflexivity.
  - destruct (slot w ch0) as [e'|]; [|discriminate].
    destruct (error_eqb e e'); [|discriminate]. injection H as <-.
    apply slot_set_other. intros ->. apply (Hr e). reflexivity.
Qed.

Lemma effect_stop (w w' : world) (ev : event) :
  effect w ev = Some w' ->
  stop w' = match ev with EvStore v => v | _ => stop w end.
Proof.
  intros H. destruct ev; simpl in H; try (injection H as <-; reflexivity).
  - destruct (v =? stop w); [|discriminate]. injection H as <-. reflexivity.
  - destruct (slot w ch); [discriminate|]. injection H as <-. apply stop_set_slot.
  - destruct (slot w ch) as [e'|]; [|discriminate].
    destruct (error_eqb e e'); [|discriminate]. injection H as <-. apply stop_set_slot.
Qed.

Lemma effect_rdl (w w' : world) (ev : event) :
  effect w ev = Some w' ->
  rdl w' = match ev with
           | EvSetReadDeadline c t => upd (rdl w) c t
           | _ => rdl w
           end.
Proof.
  intros H. destruct ev; simpl in H; try (injection H as <-; reflexivity).
  - destruct (v =? stop w); [|discriminate]. injection H as <-. reflexivity.
  - destruct (slot w ch); [discriminate|]. injection H as <-. destruct ch; reflexivity.
  - destruct (slot w ch) as [e'|]; [|discriminate].
    destruct (error_eqb e e'); [|discriminate]. injection H as <-.
    destruct ch; reflexivity.
Qed.

Lemma upd_same (f : conn -> option Z) (c : conn) (t : Z) : upd f c t c = Some t.
Proof. unfold upd. now rewrite Nat.eqb_refl. Qed.

Lemma upd_other (f : conn -> option Z) (c c' : conn) (t : Z) :
  c' <> c -> upd f c t c' = f c'.
Proof.
  intros H. unfold upd. destruct (Nat.eqb c' c) eqn:E; [|reflexivity].
  apply Nat.eqb_eq in E. contradiction.
Qed.

Lemma effect_load (w w' : world) (v : Z) :
  effect w (EvLoad v) = Some w' -> v = stop w.
Proof.
  simpl. destruct (v =? stop w) eqn:E; [|discriminate].
  intros _. now apply Z.eqb_eq.
Qed.

(** The events of a copier: never a receive or a [go]; a store stores 1; a
    send is on the copier's own channel. *)
Lemma copier_event (a : args) (t t' : thread) (evs : list event) (r : resp) (ev : event) :
  run_shape a t evs -> tstep a t r = Some (ev, t') ->
  match ev with
  | EvRecv _ _ | EvGo _ => False
  | EvStore v => v = 1
  | EvSend ch _ => ch = errCh a
  | _ => True
  end.
Proof.
  intros Hshape Ht. locate Hshape Ht; exact I || reflexivity.
Qed.

(** A run that has sent is finished, and the send is its last action. *)
Lemma sent_is_exited (a : args) (rs : list resp) (t : thread) (evs : list event)
      (ch : chan) (e : error) :
  trun a rs (doCopy a) = Some (t, evs) -> In (EvSend ch e) evs ->
  t = Exited /\ exists pre, evs = pre ++ [EvSend ch e].
Proof.
  intros Hrun Hin. apply in_split in Hin. destruct Hin as (pre & post & ->).
  destruct (reported_error_provenance a rs t _ Hrun pre ch e post eq_refl)
    as (-> & -> & _).
  split; [reflexivity | exists pre; reflexivity].
Qed.

(** A finished run ends with the deferred function. *)
Lemma exited_trace (a : args) (rs : list resp) (evs : list event) :
  trun a rs (doCopy a) = Some (Exited, evs) ->
  exists pre e tn, evs = pre ++ deferred_trace a e tn.
Proof.
  intros Hrun. pose proof (trun_shape _ _ _ _ Hrun) as Hshape.
  inversion Hshape as [| | passes last e tr Hf Hl Hp]; subst.
  unfold deferred in Hp.
  explore Hp ltac:(try discriminate).
  eexists (_ ++ _), _, _. rewrite <- app_assoc. reflexivity.
Qed.

Lemma in_snoc {A : Type} (x y : A) (l : list A) :
  In x (l ++ [y]) <-> In x l \/ x = y.
Proof.
  rewrite in_app_iff. simpl. intuition congruence.
Qed.

(** Where the caller's goroutine can be, and what it does next. *)
Lemma main_step_cases (tr : list event) (p p' : prog (error * error))
      (r : resp) (ev : event) :
  ptrace BidiCopy_body tr p -> pstep p r = Some (ev, p') ->
  (ev = EvGo TOut /\ tr = []) \/
  (ev = EvGo TIn /\ tr = [EvGo TOut]) \/
  (exists e, ev = EvRecv OutErrCh e /\ tr = [EvGo TOut; EvGo TIn]) \/
  (exists e e0, ev = EvRecv InErrCh e /\
                tr = [EvGo TOut; EvGo TIn; EvRecv OutErrCh e0] /\
                p' = Ret (e0, e)).
Proof.
  intros H Hs. unfold BidiCopy_body in H.
  explore H ltac:(run_pstep Hs; eauto 10).
Qed.

Lemma main_returned (tr : list event) (oe ie : error) :
  ptrace BidiCopy_body tr (Ret (oe, ie)) ->
  tr = [EvGo TOut; EvGo TIn; EvRecv OutErrCh oe; EvRecv InErrCh ie].
Proof.
  intros H. unfold BidiCopy_body in H.
  explore H ltac:(try discriminate).
  match goal with E : Ret _ = Ret _ |- _ => injection E as -> -> end.
  reflexivity.
Qed.

Lemma inv_init (c : call) (rdl0 wdl0 : conn -> option Z) :
  session_inv c (BidiCopy c rdl0 wdl0).
Proof.
  constructor; simpl.
  - reflexivity.
  - apply ptrace_nil.
  - intros i [-> | ->]; simpl; split; auto.
  - intros [|] e H; discriminate H.
  - intros ch e H. contradiction.
  - intros [|] e H; contradiction.
  - left. reflexivity.
  - intros i v H. contradiction.
  - intros i v H. contradiction.
  - intros i cn d H. contradiction.
  - intros cn (j & d & H). contradiction.
Qed.

Lemma inv_step_main (c : call) (s s' : sys) (r : resp) :
  session_inv c s -> step s (TMain, r) = Some s' -> session_inv c s'.
Proof.
  intros Hinv Hstep.
  destruct (step_main _ _ _ Hstep) as (ev & p' & Hp & Heff & Hpar & Hgm & Hlog & Hgo & Hgi).
  destruct Hinv as [Ipar Imain Icop Islot Irecv Isent Istop Istore Iload Iarm Irdl].
  pose proof (main_step_cases _ _ _ _ _ Imain Hp) as Hcases.
  pose proof (ptrace_snoc _ _ _ _ _ _ Imain Hp) as Hmain'.
  assert (HprojM : proj TMain (log s') = proj TMain (log s) ++ [ev])
    by (rewrite Hlog; apply proj_snoc_same).
  assert (HprojC : forall i, i = TOut \/ i = TIn -> proj i (log s') = proj i (log s))
    by (intros i [-> | ->]; rewrite Hlog; apply proj_snoc_other; discriminate).
  assert (Hev : (exists g, ev = EvGo g) \/ (exists ch e, ev = EvRecv ch e))
    by (destruct Hcases as [[-> _] | [[-> _] | [(e & -> & _) | (e & e0 & -> & _)]]];
        eauto).
  assert (Hin : forall i x, In (i, x) (log s') ->
                            In (i, x) (log s) \/ (i = TMain /\ x = ev)).
  { rewrite Hlog. intros i x H. apply in_snoc in H. destruct H as [H|H];
      [left; exact H | right; injection H; auto]. }
  assert (Hstop : stop (shared s') = stop (shared s)).
  { rewrite (effect_stop _ _ _ Heff).
    destruct Hev as [[g ->] | (ch & e & ->)]; reflexivity. }
  assert (Hpt : forall ch, proj (ch_tid ch) (log s') = proj (ch_tid ch) (log s))
    by (intros [|]; apply HprojC; auto).
  constructor.
  - congruence.
  - rewrite HprojM, Hgm. exact Hmain'.
  - intros i Hi. rewrite HprojM, (HprojC i Hi). specialize (Icop i Hi).
    destruct Hi as [-> | ->]; simpl in *.
    + rewrite Hgo.
      destruct Hcases as [[-> Htr] | [[-> Htr] | [(e & -> & Htr) | (e & e0 & -> & Htr & _)]]].
      * rewrite Htr in *. destruct (gout s); [destruct Icop as [_ []]|].
        destruct Icop as [Hnil _]. rewrite Hnil, Ipar.
        split; [exists []; reflexivity | simpl; auto].
      * destruct (gout s); [|rewrite Htr in *; simpl in *; intuition congruence].
        destruct Icop as [Hrs Hgo']. split; [exact Hrs | apply in_snoc; auto].
      * destruct (gout s); [|rewrite Htr in *; simpl in *; intuition congruence].
        destruct Icop as [Hrs Hgo']. split; [exact Hrs | apply in_snoc; auto].
      * destruct (gout s); [|rewrite Htr in *; simpl in *; intuition congruence].
        destruct Icop as [Hrs Hgo']. split; [exact Hrs | apply in_snoc; auto].
    + rewrite Hgi.
      destruct Hcases as [[-> Htr] | [[-> Htr] | [(e & -> & Htr) | (e & e0 & -> & Htr & _)]]].
      * rewrite Htr in *. destruct (gin s); [destruct Icop as [_ []]|].
        destruct Icop as [Hnil _]. split; [exact Hnil|]. simpl. intuition congruence.
      * rewrite Htr in *. destruct (gin s).
        { destruct Icop as [_ [H|[]]]. discriminate H. }
        destruct Icop as [Hnil _]. rewrite Hnil, Ipar.
        split; [exists []; reflexivity | simpl; auto].
      * destruct (gin s); [|rewrite Htr in *; simpl in *; intuition congruence].
        destruct Icop as [Hrs Hgo']. split; [exact Hrs | apply in_snoc; auto].
      * destruct (gin s); [|rewrite Htr in *; simpl in *; intuition congruence].
        destruct Icop as [Hrs Hgo']. split; [exact Hrs | apply in_snoc; auto].
  - intros ch e Hslot. rewrite Hpt, HprojM.
    destruct Hev as [[g ->] | (ch0 & e0 & ->)].
    + rewrite (effect_slot _ _ _ ch Heff) in Hslot by (intros; discriminate).
      destruct (Islot ch e Hslot) as [Hs Hn]. split; [exact Hs|].
      intros e' H. apply in_snoc in H. destruct H as [H|H]; [exact (Hn e' H) | discriminate H].
    + destruct (effect_recv _ _ _ _ Heff) as [Hold Hw']; rewrite Hw' in *.
      assert (Hne : ch0 <> ch).
      { intros ->. rewrite slot_set_same in Hslot. discriminate. }
      rewrite slot_set_other in Hslot by exact Hne.
      destruct (Islot ch e Hslot) as [Hs Hn]. split; [exact Hs|].
      intros e' H. apply in_snoc in H. destruct H as [H|H]; [exact (Hn e' H)|].
      injection H as H _. congruence.
  - intros ch e H. rewrite Hpt. rewrite HprojM in H. apply in_snoc in H.
    destruct H as [H|H].
    + destruct (Irecv ch e H) as [Hs Hnone]. split; [exact Hs|].
      destruct Hev as [[g ->] | (ch0 & e0 & ->)].
      * rewrite (effect_slot _ _ _ ch Heff) by (intros; discriminate). exact Hnone.
      * destruct (effect_recv _ _ _ _ Heff) as [Hold Hw']; rewrite Hw' in *.
        assert (Hne : ch0 <> ch) by (intros ->; congruence).
        rewrite slot_set_other by exact Hne. exact Hnone.
    + subst ev. destruct (effect_recv _ _ _ _ Heff) as [Hold Hw']; rewrite Hw' in *.
      split; [exact (proj1 (Islot ch e Hold)) | apply slot_set_same].
  - intros ch e H. rewrite Hpt in H. rewrite HprojM.
    destruct (Isent ch e H) as [Hs|Hr]; [|right; apply in_snoc; auto].
    destruct Hev as [[g ->] | (ch0 & e0 & ->)].
    + left. rewrite (effect_slot _ _ _ ch Heff) by (intros; discriminate). exact Hs.
    + destruct (effect_recv _ _ _ _ Heff) as [Hold Hw']; rewrite Hw' in *.
      destruct ch, ch0; simpl in *;
        try (left; exact Hs);
        right; apply in_snoc; right; congruence.
  - rewrite Hstop. exact Istop.
  - intros i v H. rewrite Hstop. destruct (Hin _ _ H) as [H'|[_ H']]; [eauto|].
    destruct Hev as [[g ->] | (ch0 & e0 & ->)]; discriminate H'.
  - intros i v H. rewrite Hstop. destruct (Hin _ _ H) as [H'|[_ H']]; [eauto|].
    destruct Hev as [[g ->] | (ch0 & e0 & ->)]; discriminate H'.
  - intros i cn d H. rewrite Hlog. destruct (Hin _ _ H) as [H'|[_ H']].
    + destruct (Iarm _ _ _ H'); [left | right]; apply in_snoc; auto.
    + destruct Hev as [[g ->] | (ch0 & e0 & ->)]; discriminate H'.
  - intros cn (j & d & H).
    assert (Hrdl : rdl (shared s') = rdl (shared s)).
    { rewrite (effect_rdl _ _ _ Heff).
      destruct Hev as [[g ->] | (ch0 & e0 & ->)]; reflexivity. }
    rewrite Hrdl. destruct (Hin _ _ H) as [H'|[_ H']].
    + destruct (Irdl cn) as (j' & tx & Hnow & Hd); [eauto|].
      exists j', tx. split; [rewrite Hlog; apply in_snoc; auto | exact Hd].
    + destruct Hev as [[g ->] | (ch0 & e0 & ->)]; discriminate H'.
Qed.

Lemma chan_eq_dec (x y : chan) : {x = y} + {x <> y}.
Proof. decide equality. Defined.

Lemma errCh_tid (c : call) (i : tid) :
  i = TOut \/ i = TIn -> ch_tid (errCh (args_of c i)) = i.
Proof. intros [-> | ->]; reflexivity. Qed.

Lemma inv_step_copier (c : call) (s s' : sys) (i : tid) (r : resp) :
  session_inv c s -> i = TOut \/ i = TIn -> step s (i, r) = Some s' ->
  session_inv c s'.
Proof.
  intros Hinv Hi Hstep.
  destruct (step_copier _ _ _ _ Hi Hstep)
    as (t & ev & t' & Hth & Hts & Heff & Hpar & Hgm & Hth' & Hoth & Hlog).
  destruct Hinv as [Ipar Imain Icop Islot Irecv Isent Istop Istore Iload Iarm Irdl].
  rewrite Ipar in Hts. set (a := args_of c i) in *.
  pose proof (Icop i Hi) as Hci. rewrite Hth in Hci. destruct Hci as [[rs Hrs] Hgo].
  fold a in Hrs.
  pose proof (trun_shape _ _ _ _ Hrs) as Hshape.
  pose proof (copier_event _ _ _ _ _ _ Hshape Hts) as Hev.
  assert (Hrs' : trun a (rs ++ [r]) (doCopy a) = Some (t', proj i (log s) ++ [ev]))
    by (rewrite trun_snoc, Hrs, Hts; reflexivity).
  assert (HprojM : proj TMain (log s') = proj TMain (log s))
    by (rewrite Hlog; apply proj_snoc_other; destruct Hi; subst; discriminate).
  assert (HprojI : proj i (log s') = proj i (log s) ++ [ev])
    by (rewrite Hlog; apply proj_snoc_same).
  assert (HprojO : proj (other i) (log s') = proj (other i) (log s))
    by (rewrite Hlog; apply proj_snoc_other; destruct Hi; subst; discriminate).
  assert (Hmono : forall j x, In x (proj j (log s)) -> In x (proj j (log s')))
    by (intros j x H; rewrite Hlog, proj_app; apply in_or_app; left; exact H).
  assert (Hmono' : forall j x, In (j, x) (log s) -> In (j, x) (log s'))
    by (intros j x H; rewrite Hlog; apply in_or_app; left; exact H).
  assert (Hin : forall j x, In (j, x) (log s') ->
                            In (j, x) (log s) \/ (j = i /\ x = ev)).
  { rewrite Hlog. intros j x H. apply in_snoc in H. destruct H as [H|H];
      [left; exact H | right; injection H; auto]. }
  assert (Hnosend : forall ch e, ~ In (EvSend ch e) (proj i (log s))).
  { intros ch e H. destruct (sent_is_exited _ _ _ _ _ _ Hrs H) as [-> _].
    discriminate Hts. }
  assert (Hstop' : stop (shared s') = stop (shared s) \/
                   (stop (shared s') = 1 /\ ev = EvStore 1)).
  { rewrite (effect_stop _ _ _ Heff). destruct ev; auto. subst v. auto. }
  assert (Hstop1 : stop (shared s) = 1 -> stop (shared s') = 1)
    by (destruct Hstop' as [-> | [-> _]]; auto).
  assert (Htid : ch_tid (errCh a) = i) by (apply errCh_tid; exact Hi).
  assert (Hslots :
            (exists e0, ev = EvSend (errCh a) e0 /\ slot (shared s) (errCh a) = None /\
                        shared s' = set_slot (shared s) (errCh a) (Some e0)) \/
            ((forall ch e, ev <> EvSend ch e) /\
             forall ch, slot (shared s') ch = slot (shared s) ch)).
  { destruct ev;
      try (right; split; [intros; discriminate|];
           intros ch0; apply (effect_slot _ _ _ ch0 Heff); intros; discriminate).
    - subst ch. left. exists e. destruct (effect_send _ _ _ _ Heff) as [H1 H2]. auto.
    - contradiction. }
  assert (Hother : forall ch, ch <> errCh a -> ch_tid ch = other i)
    by (intros ch H; subst a; destruct Hi as [-> | ->], ch; simpl in *; congruence).
  clear Hstep.
  constructor.
  - congruence.
  - rewrite HprojM, Hgm. exact Imain.
  - intros j Hj. rewrite HprojM.
    assert (Hji : j = i \/ j = other i)
      by (destruct Hi as [-> | ->], Hj as [-> | ->]; simpl; auto).
    destruct Hji as [-> | ->].
    + rewrite Hth', HprojI. split; [exists (rs ++ [r]); exact Hrs' | exact Hgo].
    + rewrite Hoth, HprojO. apply Icop.
      destruct Hi as [-> | ->]; simpl; auto.
  - intros ch e Hslot. rewrite HprojM.
    destruct Hslots as [(e0 & -> & Hnone & Hw') | [_ Hsame]].
    + rewrite Hw' in Hslot. destruct (chan_eq_dec ch (errCh a)) as [-> | Hne].
      * rewrite slot_set_same in Hslot. injection Hslot as ->.
        split.
        -- rewrite Htid, HprojI. apply in_snoc. right. reflexivity.
        -- intros e' H. destruct (Irecv _ _ H) as [Hs _].
           rewrite Htid in Hs. exact (Hnosend _ _ Hs).
      * rewrite slot_set_other in Hslot by congruence.
        destruct (Islot ch e Hslot) as [Hs Hn]. split; [apply Hmono; exact Hs | exact Hn].
    + rewrite Hsame in Hslot.
      destruct (Islot ch e Hslot) as [Hs Hn]. split; [apply Hmono; exact Hs | exact Hn].
  - intros ch e H. rewrite HprojM in H.
    destruct (Irecv ch e H) as [Hs Hnone]. split; [apply Hmono; exact Hs|].
    destruct Hslots as [(e0 & -> & _ & Hw') | [_ Hsame]].
    + rewrite Hw'. destruct (chan_eq_dec ch (errCh a)) as [-> | Hne].
      * rewrite Htid in Hs. destruct (Hnosend _ _ Hs).
      * rewrite slot_set_other by congruence. exact Hnone.
    + rewrite Hsame. exact Hnone.
  - intros ch e H. rewrite HprojM.
    destruct (chan_eq_dec ch (errCh a)) as [-> | Hne].
    + rewrite Htid, HprojI in H. apply in_snoc in H. destruct H as [H|H].
      * destruct (Hnosend _ _ H).
      * destruct Hslots as [(e0 & Hev0 & _ & Hw') | [Hns _]].
        -- left. rewrite Hw', slot_set_same. congruence.
        -- destruct (Hns _ _ (eq_sym H)).
    + rewrite (Hother ch Hne), HprojO in H. rewrite <- (Hother ch Hne) in H.
      destruct (Isent ch e H) as [Hs | Hr]; [left | right; exact Hr].
      destruct Hslots as [(e0 & _ & _ & Hw') | [_ Hsame]].
      * rewrite Hw', slot_set_other by congruence. exact Hs.
      * rewrite Hsame. exact Hs.
  - destruct Hstop' as [-> | [-> _]]; auto.
  - intros j v H. destruct (Hin _ _ H) as [H' | [_ H']].
    + destruct (Istore _ _ H') as [-> H1]. auto.
    + subst ev. simpl in Hev. subst v. split; [reflexivity|].
      rewrite (effect_stop _ _ _ Heff). reflexivity.
  - intros j v H. destruct (Hin _ _ H) as [H' | [_ H']].
    + destruct (Iload _ _ H') as [-> | [-> H1]]; auto.
    + subst ev. pose proof (effect_load _ _ _ Heff) as ->.
      rewrite (effect_stop _ _ _ Heff).
      destruct Istop as [-> | ->]; auto.
  - intros j cn d H. destruct (Hin _ _ H) as [H' | [-> H']].
    + destruct (Iarm _ _ _ H'); [left | right]; apply Hmono'; assumption.
    + subst ev.
      destruct (at_arm _ _ _ _ _ _ _ Hshape Hts) as (pre & tn & _ & [[_ Hpre] | [_ Hpre]]).
      * left. apply Hmono'. apply proj_In. rewrite Hpre.
        apply in_or_app. right. simpl. auto.
      * right. apply Hmono'. apply proj_In. rewrite Hpre.
        apply in_or_app. right. simpl. auto.
  - intros cn (j & d & H). rewrite (effect_rdl _ _ _ Heff).
    assert (Hold : (exists j d, In (j, EvSetReadDeadline cn d) (log s)) ->
                   exists j tx, In (j, EvNow tx) (log s') /\
                                rdl (shared s) cn = Some (time_Add tx copyTimeout)).
    { intros Hex. destruct (Irdl cn Hex) as (j' & tx & Hnow & Hd).
      exists j', tx. split; [apply Hmono'; exact Hnow | exact Hd]. }
    destruct ev as [| | |cn' d'| | | | | |];
      try (apply Hold; destruct (Hin _ _ H) as [H' | [_ H']];
           [eauto | discriminate H']).
    destruct (at_arm _ _ _ _ _ _ _ Hshape Hts) as (pre & tn & -> & Hpre).
    destruct (Nat.eq_dec cn cn') as [-> | Hne].
    + exists i, tn. split; [|apply upd_same].
      apply Hmono'. apply proj_In.
      destruct Hpre as [[_ ->] | [_ ->]]; apply in_or_app; right; simpl; auto.
    + rewrite upd_other by exact Hne. apply Hold.
      destruct (Hin _ _ H) as [H' | [_ H']]; [eauto|].
      injection H' as -> _. congruence.
Qed.

(** Every state of a call satisfies the invariant. *)
Lemma inv_step (c : call) (s s' : sys) (m : tid * resp) :
  session_inv c s -> step s m = Some s' -> session_inv c s'.
Proof.
  destruct m as [[| |] r]; intros Hinv Hstep.
  - eapply inv_step_main; eassumption.
  - eapply inv_step_copier; [eassumption | left; reflexivity | eassumption].
  - eapply inv_step_copier; [eassumption | right; reflexivity | eassumption].
Qed.

Lemma inv_reachable (c : call) (rdl0 wdl0 : conn -> option Z)
      (ms : list (tid * resp)) (s : sys) :
  exec ms (BidiCopy c rdl0 wdl0) = Some s -> session_inv c s.
Proof.
  apply (exec_invariant (session_inv c)).
  - intros. eapply inv_step; eassumption.
  - apply inv_init.
Qed.

Lemma main_states (tr : list event) (p : prog (error * error)) :
  ptrace BidiCopy_body tr p ->
  (tr = [] \/ tr = [EvGo TOut]) \/
  (tr = [EvGo TOut; EvGo TIn] /\
   p = Recv OutErrCh (fun oe => Recv InErrCh (fun ie => Ret (oe, ie)))) \/
  (exists oe, tr = [EvGo TOut; EvGo TIn; EvRecv OutErrCh oe] /\
              p = Recv InErrCh (fun ie => Ret (oe, ie))) \/
  (exists oe ie, tr = [EvGo TOut; EvGo TIn; EvRecv OutErrCh oe; EvRecv InErrCh ie] /\
                 p = Ret (oe, ie)).
Proof.
  intros H. unfold BidiCopy_body in H.
  explore H ltac:(eauto 10).
Qed.

Lemma error_eqb_refl (e : error) : error_eqb e e = true.
Proof. apply error_eqb_eq. reflexivity. Qed.

(** A receive by the caller's goroutine from a full channel. *)
Lemma main_recv_step (s : sys) (ch : chan) (k : error -> prog (error * error))
      (e : error) :
  gmain s = Recv ch k -> slot (shared s) ch = Some e ->
  step s (TMain, RErr e) =
  Some (mkSys (params s) (set_slot (shared s) ch None) (k e) (gout s) (gin s)
              (log s ++ [(TMain, EvRecv ch e)])).
Proof.
  intros Hg Hs. unfold step. rewrite Hg. simpl. rewrite Hs, error_eqb_refl.
  reflexivity.
Qed.

Lemma send_unique (a : args) (rs : list resp) (t : thread) (pre : list event)
      (ch ch' : chan) (e e' : error) :
  trun a rs (doCopy a) = Some (t, pre ++ [EvSend ch e]) ->
  In (EvSend ch' e') (pre ++ [EvSend ch e]) -> ch' = ch /\ e' = e.
Proof.
  intros Hrun Hin.
  destruct (sent_is_exited _ _ _ _ _ _ Hrun Hin) as [_ [pre' Heq]].
  apply app_inj_tail in Heq. destruct Heq as [_ Heq]. injection Heq as -> ->.
  split; reflexivity.
Qed.

(** A copier that has acted was started, and its actions are a run of
    [doCopy]. *)
Lemma copier_run (c : call) (s : sys) (i : tid) :
  session_inv c s -> i = TOut \/ i = TIn -> proj i (log s) <> [] ->
  exists t rs,
    thread_of s i = Some t /\
    trun (args_of c i) rs (doCopy (args_of c i)) = Some (t, proj i (log s)) /\
    In (EvGo i) (proj TMain (log s)).
Proof.
  intros Hinv Hi Hne. pose proof (inv_copier c s Hinv i Hi) as H.
  destruct (thread_of s i) as [t|].
  - destruct H as [[rs Hrs] Hgo]. exists t, rs. auto.
  - destruct H as [H _]. contradiction.
Qed.

(** C4: [BidiCopy] starts [doCopy(out, in, bufIn, ...)] reporting on
    [outErrCh] and [doCopy(in, out, bufOut, ...)] reporting on [inErrCh], with
    its first two actions, and what each of these goroutines does is a run
    of that [doCopy].  When it has returned [(outErr, inErr)], both
    goroutines have finished and the last action of each was to send exactly
    that error.  As soon as both have sent their errors, whatever these are,
    the caller's goroutine can complete, and it returns exactly the two
    errors sent.  A copier about to send its error finds its channel empty:
    the send does not block. *)
Theorem BidiCopy_returns_both_errors (c : call) (rdl0 wdl0 : conn -> option Z)
        (ms : list (tid * resp)) (s : sys) :
  exec ms (BidiCopy c rdl0 wdl0) = Some s ->
  (args_of c TOut = mkArgs (out c) (in_ c) (bufIn c) (wTimeout c) OutErrCh /\
   args_of c TIn = mkArgs (in_ c) (out c) (bufOut c) (wTimeout c) InErrCh /\
   (exists s2,
       exec [(TMain, RUnit); (TMain, RUnit)] (BidiCopy c rdl0 wdl0) = Some s2 /\
       gout s2 = Some (doCopy (args_of c TOut)) /\
       gin s2 = Some (doCopy (args_of c TIn))) /\
   forall i t, i = TOut \/ i = TIn -> thread_of s i = Some t ->
     exists rs, trun (args_of c i) rs (doCopy (args_of c i)) = Some (t, proj i (log s))) /\
  (forall outErr inErr,
      returned s = Some (outErr, inErr) ->
      gout s = Some Exited /\ gin s = Some Exited /\
      (exists pre, proj TOut (log s) = pre ++ [EvSend OutErrCh outErr]) /\
      (exists pre, proj TIn (log s) = pre ++ [EvSend InErrCh inErr])) /\
  (forall preO preI outErr inErr,
      proj TOut (log s) = preO ++ [EvSend OutErrCh outErr] ->
      proj TIn (log s) = preI ++ [EvSend InErrCh inErr] ->
      exists ms' s',
        Forall (fun m => fst m = TMain) ms' /\
        exec ms' s = Some s' /\
        returned s' = Some (outErr, inErr)) /\
  (forall i e,
      i = TOut \/ i = TIn ->
      thread_of s i = Some (Defer (chan_Send (errCh (args_of c i)) e)) ->
      slot (shared s) (errCh (args_of c i)) = None).
Proof.
  intros Hrun. pose proof (inv_reachable _ _ _ _ _ Hrun) as Hinv.
  split; [|split; [|split]]; cycle 3.
  { intros i e Hi Hth.
    destruct (slot (shared s) (errCh (args_of c i))) as [e'|] eqn:Hslot; [|reflexivity].
    exfalso. destruct (inv_slot c s Hinv _ _ Hslot) as [Hs _].
    rewrite (errCh_tid c i Hi) in Hs.
    pose proof (inv_copier c s Hinv i Hi) as Hc. rewrite Hth in Hc.
    destruct Hc as [[rs Hrs] _].
    destruct (sent_is_exited _ _ _ _ _ _ Hrs Hs) as [Hex _]. discriminate Hex. }
  - split; [reflexivity|]. split; [reflexivity|].
    split; [eexists; split; [reflexivity | split; reflexivity]|].
    intros i t Hi Ht. pose proof (inv_copier c s Hinv i Hi) as H.
    rewrite Ht in H. exact (proj1 H).
  - intros outErr inErr Hret. unfold returned in Hret.
    destruct (gmain s) as [[oe ie]| | | | | | | | | | | ] eqn:Hg; try discriminate.
    injection Hret as -> ->.
    pose proof (inv_main c s Hinv) as Hm. rewrite Hg in Hm.
    apply main_returned in Hm.
    assert (Hfin : forall ch e, In (EvRecv ch e) (proj TMain (log s)) ->
                     thread_of s (ch_tid ch) = Some Exited /\
                     exists pre, proj (ch_tid ch) (log s) = pre ++ [EvSend ch e]).
    { intros ch e Hin. destruct (inv_recv c s Hinv ch e Hin) as [Hs _].
      assert (Hi : ch_tid ch = TOut \/ ch_tid ch = TIn) by (destruct ch; auto).
      destruct (copier_run c s _ Hinv Hi) as (t & rs & Ht & Hrs & _).
      { intros Hnil. rewrite Hnil in Hs. contradiction. }
      destruct (sent_is_exited _ _ _ _ _ _ Hrs Hs) as [-> Hpre].
      split; assumption. }
    destruct (Hfin OutErrCh outErr) as [HtO HpO]; [rewrite Hm; simpl; auto|].
    destruct (Hfin InErrCh inErr) as [HtI HpI]; [rewrite Hm; simpl; auto|].
    simpl in *. auto.
  - intros preO preI outErr inErr HpO HpI.
    destruct (copier_run c s TOut Hinv) as (tO & rsO & _ & HrO & HgoO);
      [auto | rewrite HpO; destruct preO; discriminate |].
    destruct (copier_run c s TIn Hinv) as (tI & rsI & _ & HrI & HgoI);
      [auto | rewrite HpI; destruct preI; discriminate |].
    assert (HsO : In (EvSend OutErrCh outErr) (proj (ch_tid OutErrCh) (log s)))
      by (simpl; rewrite HpO; apply in_snoc; auto).
    assert (HsI : In (EvSend InErrCh inErr) (proj (ch_tid InErrCh) (log s)))
      by (simpl; rewrite HpI; apply in_snoc; auto).
    assert (Huo : forall e, In (EvRecv OutErrCh e) (proj TMain (log s)) -> e = outErr).
    { intros e Hin. destruct (inv_recv c s Hinv _ _ Hin) as [Hs _]. simpl in Hs.
      rewrite HpO in Hs, HrO. exact (proj2 (send_unique _ _ _ _ _ _ _ _ HrO Hs)). }
    assert (Hui : forall e, In (EvRecv InErrCh e) (proj TMain (log s)) -> e = inErr).
    { intros e Hin. destruct (inv_recv c s Hinv _ _ Hin) as [Hs _]. simpl in Hs.
      rewrite HpI in Hs, HrI. exact (proj2 (send_unique _ _ _ _ _ _ _ _ HrI Hs)). }
    pose proof (inv_sent c s Hinv _ _ HsO) as HslO.
    pose proof (inv_sent c s Hinv _ _ HsI) as HslI.
    destruct (main_states _ _ (inv_main c s Hinv))
      as [[Htr | Htr] | [[Htr Hg] | [(oe & Htr & Hg) | (oe & ie & Htr & Hg)]]];
      rewrite Htr in *.
    + destruct HgoO.
    + destruct HgoI as [H|[]]. discriminate H.
    + destruct HslO as [HslO | [H|[H|[]]]]; try discriminate H.
      destruct HslI as [HslI | [H|[H|[]]]]; try discriminate H.
      eexists [(TMain, RErr outErr); (TMain, RErr inErr)], _.
      split; [repeat constructor|].
      rewrite exec_cons, (main_recv_step s _ _ _ Hg HslO).
      rewrite exec_cons.
      erewrite main_recv_step; [| reflexivity | exact HslI].
      split; reflexivity.
    + assert (oe = outErr) by (apply Huo; simpl; auto). subst oe.
      destruct HslI as [HslI | [H|[H|[H|[]]]]]; try discriminate H.
      eexists [(TMain, RErr inErr)], _.
      split; [repeat constructor|].
      rewrite exec_cons, (main_recv_step s _ _ _ Hg HslI).
      split; reflexivity.
    + assert (oe = outErr) by (apply Huo; simpl; auto).
      assert (ie = inErr) by (apply Hui; simpl; auto). subst oe ie.
      exists [], s. split; [constructor|]. split; [reflexivity|].
      unfold returned. rewrite Hg. reflexivity.
Qed.

Lemma BidiCopy_returns_both_errors_witness :
  exec sample_schedule (BidiCopy sample_call no_deadline no_deadline) =
    Some sample_final /\
  returned sample_final = Some (Nil, Nil) /\
  gout sample_final = Some Exited /\ gin sample_final = Some Exited.
Proof.
  split; [reflexivity|]. split; [reflexivity|].
  destruct (proj1 (proj2 (BidiCopy_returns_both_errors
                            sample_call no_deadline no_deadline
                            sample_schedule sample_final eq_refl))
              Nil Nil eq_refl) as (HO & HI & _).
  split; [exact HO | exact HI].
Defined.

(** Once set, the stop flag stays set. *)
Lemma step_stop (c : call) (s s' : sys) (m : tid * resp) :
  session_inv c s -> step s m = Some s' ->
  stop (shared s') = stop (shared s) \/
  (stop (shared s) = 0 /\ stop (shared s') = 1).
Proof.
  intros Hinv Hstep.
  pose proof (inv_step _ _ _ _ Hinv Hstep) as Hinv'.
  destruct (inv_stop c s Hinv) as [H0 | H1].
  - destruct (inv_stop c s' Hinv') as [H0' | H1']; [left; congruence | right; auto].
  - left. destruct m as [[| |] r].
    + destruct (step_main _ _ _ Hstep) as (ev & p' & Hp & Heff & _).
      pose proof (main_step_cases _ _ _ _ _ (inv_main c s Hinv) Hp) as Hc.
      rewrite (effect_stop _ _ _ Heff).
      destruct Hc as [[-> _] | [[-> _] | [(e & -> & _) | (e & e0 & -> & _)]]];
        reflexivity.
    + destruct (step_copier s s' TOut r (or_introl eq_refl) Hstep)
        as (t & ev & t' & Hth & Hts & Heff & _).
      pose proof (inv_copier c s Hinv TOut (or_introl eq_refl)) as Hc.
      rewrite Hth in Hc. destruct Hc as [[rs Hrs] _].
      rewrite (inv_params c s Hinv) in Hts.
      pose proof (copier_event _ _ _ _ _ _ (trun_shape _ _ _ _ Hrs) Hts) as Hev.
      rewrite (effect_stop _ _ _ Heff). destruct ev; try reflexivity. congruence.
    + destruct (step_copier s s' TIn r (or_intror eq_refl) Hstep)
        as (t & ev & t' & Hth & Hts & Heff & _).
      pose proof (inv_copier c s Hinv TIn (or_intror eq_refl)) as Hc.
      rewrite Hth in Hc. destruct Hc as [[rs Hrs] _].
      rewrite (inv_params c s Hinv) in Hts.
      pose proof (copier_event _ _ _ _ _ _ (trun_shape _ _ _ _ Hrs) Hts) as Hev.
      rewrite (effect_stop _ _ _ Heff). destruct ev; try reflexivity. congruence.
Qed.

Lemma stops_shape (c : call) (ms : list (tid * resp)) (s0 s : sys) :
  session_inv c s0 -> exec ms s0 = Some s ->
  (stop (shared s0) = 1 -> stops ms s0 = repeat 1 (S (List.length ms))) /\
  (stop (shared s0) = 0 ->
   exists k m, stops ms s0 = repeat 0 (S k) ++ repeat 1 m).
Proof.
  revert s0. induction ms as [|m ms IH]; intros s0 Hinv Hrun; simpl in *.
  - split; intros ->; [reflexivity | exists 0%nat, 0%nat; reflexivity].
  - destruct (step s0 m) as [s1|] eqn:Hs; [|discriminate].
    pose proof (inv_step _ _ _ _ Hinv Hs) as Hinv1.
    destruct (IH s1 Hinv1 Hrun) as [IH1 IH0].
    destruct (step_stop _ _ _ _ Hinv Hs) as [Heq | [H0 H1]].
    + split; intros H.
      * rewrite H. f_equal. apply IH1. congruence.
      * rewrite H. destruct IH0 as (k & n & ->); [congruence|].
        exists (S k), n. reflexivity.
    + split; intros H; [congruence|].
      rewrite H, (IH1 H1). exists 0%nat, (S (List.length ms)). reflexivity.
Qed.

(** C5: [stop] is 0 when the call starts; every store into it stores 1;
    along every schedule its values are a run of zeros followed by a run of
    ones; every atomic load returns its value at that moment; and a copier
    at the top of the loop can only go on by loading it. *)
Theorem stop_flag_set_once (c : call) (rdl0 wdl0 : conn -> option Z)
        (ms : list (tid * resp)) (s : sys) :
  exec ms (BidiCopy c rdl0 wdl0) = Some s ->
  stop (shared (BidiCopy c rdl0 wdl0)) = 0 /\
  (forall i v, In (i, EvStore v) (log s) -> v = 1) /\
  (exists k m, stops ms (BidiCopy c rdl0 wdl0) = repeat 0 (S k) ++ repeat 1 m) /\
  (forall i r s' v,
      step s (i, r) = Some s' -> log s' = log s ++ [(i, EvLoad v)] ->
      v = stop (shared s)) /\
  (forall i r s',
      i = TOut \/ i = TIn ->
      thread_of s i = Some (doCopy (args_of c i)) ->
      step s (i, r) = Some s' ->
      r = RVal (stop (shared s)) /\
      log s' = log s ++ [(i, EvLoad (stop (shared s)))]).
Proof.
  intros Hrun. pose proof (inv_reachable _ _ _ _ _ Hrun) as Hinv.
  split; [reflexivity|]. split; [|split; [|split]].
  - intros i v H. exact (proj1 (inv_store c s Hinv i v H)).
  - exact (proj2 (stops_shape c ms _ s (inv_init c rdl0 wdl0) Hrun) eq_refl).
  - intros i r s' v Hstep Hlog.
    assert (Heff : effect (shared s) (EvLoad v) = Some (shared s')).
    { destruct i.
      - destruct (step_main _ _ _ Hstep) as (ev & p' & _ & Heff & _ & _ & Hlog' & _).
        rewrite Hlog' in Hlog. apply app_inj_tail in Hlog.
        destruct Hlog as [_ Heq]. injection Heq as ->. exact Heff.
      - destruct (step_copier s s' TOut r (or_introl eq_refl) Hstep)
          as (t & ev & t' & _ & _ & Heff & _ & _ & _ & _ & Hlog').
        rewrite Hlog' in Hlog. apply app_inj_tail in Hlog.
        destruct Hlog as [_ Heq]. injection Heq as ->. exact Heff.
      - destruct (step_copier s s' TIn r (or_intror eq_refl) Hstep)
          as (t & ev & t' & _ & _ & Heff & _ & _ & _ & _ & Hlog').
        rewrite Hlog' in Hlog. apply app_inj_tail in Hlog.
        destruct Hlog as [_ Heq]. injection Heq as ->. exact Heff. }
    exact (effect_load _ _ _ Heff).
  - intros i r s' Hi Hth Hstep.
    destruct (step_copier _ _ _ _ Hi Hstep)
      as (t & ev & t' & Hth0 & Hts & Heff & _ & _ & _ & _ & Hlog).
    rewrite Hth in Hth0. injection Hth0 as <-.
    destruct r; try discriminate Hts. cbn in Hts. injection Hts as <- _.
    pose proof (effect_load _ _ _ Heff) as ->.
    split; [reflexivity | exact Hlog].
Qed.

Lemma stop_flag_set_once_witness :
  exists k m,
    stops sample_schedule (BidiCopy sample_call no_deadline no_deadline) =
    repeat 0 (S k) ++ repeat 1 m.
Proof.
  exact (proj1 (proj2 (proj2
    (stop_flag_set_once sample_call no_deadline no_deadline
       sample_schedule sample_final eq_refl)))).
Defined.

(** A copier that can act, acts. *)
Lemma copier_can_step (s : sys) (i : tid) (t t' : thread) (r : resp)
      (ev : event) (w' : world) :
  i = TOut \/ i = TIn ->
  thread_of s i = Some t ->
  tstep (args_of (params s) i) t r = Some (ev, t') ->
  effect (shared s) ev = Some w' ->
  exists s',
    step s (i, r) = Some s' /\
    shared s' = w' /\ params s' = params s /\
    thread_of s' i = Some t' /\
    log s' = log s ++ [(i, ev)].
Proof.
  intros [-> | ->] Hth Hts Heff; simpl in *; rewrite Hth, Hts, Heff;
    eexists; (split; [reflexivity|]); simpl; auto.
Qed.

(** The copier to [out] reads end-of-stream at once and is the first to
    return: the one read deadline it arms is on connection 0, its
    destination [out]; its own source is connection 1, [in], whose read
    deadline is left as it was. *)
Lemma first_copier_arms_destination_counterexample :
  exec [(TMain, RUnit); (TMain, RUnit);
        (TOut, RVal 0); (TOut, RIO 0 EOF);
        (TOut, RUnit); (TOut, RVal 10); (TOut, RUnit); (TOut, RUnit)]
       (BidiCopy sample_call no_deadline no_deadline) =
  Some (mkSys sample_call
              (mkWorld 1 (Some Nil) None
                       (upd no_deadline 0%nat (time_Add 10 copyTimeout))
                       no_deadline)
              (Recv OutErrCh (fun outErr => Recv InErrCh (fun inErr =>
                 Ret (outErr, inErr))))
              (Some Exited) (Some (doCopy (args_in sample_call)))
              [(TMain, EvGo TOut); (TMain, EvGo TIn);
               (TOut, EvLoad 0); (TOut, EvRead 1%nat 0 EOF);
               (TOut, EvStore 1); (TOut, EvNow 10);
               (TOut, EvSetReadDeadline 0%nat (time_Add 10 copyTimeout));
               (TOut, EvSend OutErrCh Nil)]) /\
  src (args_out sample_call) = 1%nat /\
  dst (args_out sample_call) = 0%nat /\
  upd no_deadline 0%nat (time_Add 10 copyTimeout) 1%nat = None.
Proof. repeat split; reflexivity. Qed.

(** C7, as amended: the copier whose deferred store finds the stop flag
    still 0 sets it to 1; up to then no read deadline has been armed on any
    connection by the call (so none on its own source); and its next two
    actions read the clock and arm the read deadline of its destination,
    which is the source of the other copier, at [copyTimeout] from that
    reading. *)
Theorem first_copier_arms_destination (c : call) (rdl0 wdl0 : conn -> option Z)
        (ms : list (tid * resp)) (s s' : sys) (i : tid) (r : resp) (v : Z) :
  exec ms (BidiCopy c rdl0 wdl0) = Some s ->
  i = TOut \/ i = TIn ->
  step s (i, r) = Some s' ->
  log s' = log s ++ [(i, EvStore v)] ->
  stop (shared s) = 0 ->
  v = 1 /\ stop (shared s') = 1 /\
  (forall j cn d, ~ In (j, EvSetReadDeadline cn d) (log s')) /\
  (forall tn, exists s'',
      exec [(i, RVal tn); (i, RUnit)] s' = Some s'' /\
      log s'' = log s' ++
                [(i, EvNow tn);
                 (i, EvSetReadDeadline (dst (args_of c i)) (time_Add tn copyTimeout))] /\
      rdl (shared s'') (dst (args_of c i)) = Some (time_Add tn copyTimeout)) /\
  dst (args_of c i) = src (args_of c (other i)).
Proof.
  intros Hrun Hi Hstep Hlog Hstop0.
  pose proof (inv_reachable _ _ _ _ _ Hrun) as Hinv.
  destruct (step_copier _ _ _ _ Hi Hstep)
    as (t & ev & t' & Hth & Hts & Heff & Hpar & _ & Hth' & _ & Hlog').
  rewrite Hlog' in Hlog. apply app_inj_tail in Hlog. destruct Hlog as [_ Heq].
  injection Heq as ->.
  rewrite (inv_params c s Hinv) in Hts, Hpar.
  pose proof (inv_copier c s Hinv i Hi) as Hc. rewrite Hth in Hc.
  destruct Hc as [[rs Hrs] _].
  destruct (at_store _ _ _ _ _ _ (trun_shape _ _ _ _ Hrs) Hts) as [-> [e ->]].
  destruct r; try discriminate Hts. cbn in Hts. injection Hts as <-.
  split; [reflexivity|]. split; [rewrite (effect_stop _ _ _ Heff); reflexivity|].
  split; [|split].
  - intros j cn d H. rewrite Hlog' in H. apply in_snoc in H.
    destruct H as [H | H]; [|discriminate H].
    destruct (inv_arm c s Hinv _ _ _ H) as [Hl | Hs].
    + destruct (inv_load c s Hinv _ _ Hl) as [H1 | [_ H1]]; [discriminate | congruence].
    + destruct (inv_store c s Hinv _ _ Hs) as [_ H1]. congruence.
  - intros tn.
    edestruct (copier_can_step s' i) with (r := RVal tn) (ev := EvNow tn)
      as (s1 & Hs1 & Hw1 & Hp1 & Hth1 & Hl1);
      [exact Hi | exact Hth' | rewrite Hpar; reflexivity | reflexivity |].
    edestruct (copier_can_step s1 i) with (r := RUnit)
      as (s2 & Hs2 & Hw2 & Hp2 & Hth2 & Hl2);
      [exact Hi | exact Hth1 | rewrite Hp1, Hpar; reflexivity | reflexivity |].
    exists s2. split; [|split].
    + rewrite exec_cons, Hs1, exec_cons, Hs2. reflexivity.
    + rewrite Hl2, Hl1, <- app_assoc. reflexivity.
    + rewrite Hw2. simpl. apply upd_same.
  - destruct Hi as [-> | ->]; reflexivity.
Qed.

Lemma first_copier_arms_destination_witness :
  stop (mkWorld 1 None None no_deadline no_deadline) = 1 /\
  dst (args_of sample_call TOut) = src (args_of sample_call (other TOut)).
Proof.
  refine ((fun H => conj (proj1 (proj2 H)) (proj2 (proj2 (proj2 (proj2 H)))))
    (first_copier_arms_destination sample_call no_deadline no_deadline
       [(TMain, RUnit); (TMain, RUnit); (TOut, RVal 0); (TOut, RIO 0 EOF)]
       (mkSys sample_call (mkWorld 0 None None no_deadline no_deadline)
              (Recv OutErrCh (fun outErr => Recv InErrCh (fun inErr =>
                 Ret (outErr, inErr))))
              (Some (Defer (deferred (args_out sample_call) Nil)))
              (Some (doCopy (args_in sample_call)))
              [(TMain, EvGo TOut); (TMain, EvGo TIn);
               (TOut, EvLoad 0); (TOut, EvRead 1%nat 0 EOF)])
       (mkSys sample_call (mkWorld 1 None None no_deadline no_deadline)
              (Recv OutErrCh (fun outErr => Recv InErrCh (fun inErr =>
                 Ret (outErr, inErr))))
              (Some (Defer (Now (fun now =>
                 SetReadDeadline 0%nat (time_Add now copyTimeout)
                   (chan_Send OutErrCh Nil)))))
              (Some (doCopy (args_in sample_call)))
              [(TMain, EvGo TOut); (TMain, EvGo TIn);
               (TOut, EvLoad 0); (TOut, EvRead 1%nat 0 EOF); (TOut, EvStore 1)])
       TOut RUnit 1 eq_refl (or_introl eq_refl) eq_refl eq_refl eq_refl)).
Defined.

(** C6: in a [BidiCopy] call, whenever a copier sends its terminal error,
    the send is on its own channel and ends the goroutine; the stop flag is
    1; the three actions of the copier before the send were the store of 1
    into the stop flag, a clock reading and the arming of the read deadline
    of its destination at [copyTimeout] from that reading; and the read
    deadline in force on the destination is a clock reading of the call plus
    [copyTimeout].  And whatever action takes a copier out of the loop (a
    short write, end-of-stream, an expected timeout, a fatal read error),
    the deferred function that does all this is what it runs next. *)
Theorem report_after_stop_and_deadline (c : call) (rdl0 wdl0 : conn -> option Z)
        (ms : list (tid * resp)) (s : sys) (i : tid) :
  exec ms (BidiCopy c rdl0 wdl0) = Some s ->
  i = TOut \/ i = TIn ->
  (forall r s' ch e,
      step s (i, r) = Some s' -> log s' = log s ++ [(i, EvSend ch e)] ->
      ch = errCh (args_of c i) /\
      thread_of s' i = Some Exited /\
      stop (shared s) = 1 /\
      (exists pre tn,
          proj i (log s) =
          pre ++ [EvStore 1; EvNow tn;
                  EvSetReadDeadline (dst (args_of c i)) (time_Add tn copyTimeout)]) /\
      (exists j tx,
          In (j, EvNow tx) (log s) /\
          rdl (shared s) (dst (args_of c i)) = Some (time_Add tx copyTimeout))) /\
  (forall r s' p,
      step s (i, r) = Some s' ->
      thread_of s i = Some (Loop p) ->
      (forall p', thread_of s' i <> Some (Loop p')) ->
      exists e,
        thread_of s' i = Some (Defer (deferred (args_of c i) e)) /\
        exits_with (args_of c i) (Defer (deferred (args_of c i) e)) e).
Proof.
  intros Hrun Hi. pose proof (inv_reachable _ _ _ _ _ Hrun) as Hinv.
  split.
  - intros r s' ch e Hstep Hlog.
    destruct (step_copier _ _ _ _ Hi Hstep)
      as (t & ev & t' & Hth & Hts & Heff & _ & _ & Hth' & _ & Hlog').
    rewrite Hlog' in Hlog. apply app_inj_tail in Hlog. destruct Hlog as [_ Heq].
    injection Heq as ->.
    rewrite (inv_params c s Hinv) in Hts.
    pose proof (inv_copier c s Hinv i Hi) as Hc. rewrite Hth in Hc.
    destruct Hc as [[rs Hrs] _].
    destruct (at_send _ _ _ _ _ _ _ (trun_shape _ _ _ _ Hrs) Hts)
      as (-> & -> & pre & tn & Hpre).
    split; [reflexivity|]. split; [exact Hth'|].
    assert (Hst : In (i, EvStore 1) (log s)).
    { apply proj_In. rewrite Hpre. apply in_or_app. right. simpl. auto. }
    assert (Harm : In (i, EvSetReadDeadline (dst (args_of c i))
                            (time_Add tn copyTimeout)) (log s)).
    { apply proj_In. rewrite Hpre. apply in_or_app. right. simpl. auto. }
    split; [exact (proj2 (inv_store c s Hinv _ _ Hst))|].
    split; [exists pre, tn; exact Hpre|].
    apply (inv_rdl c s Hinv). eauto.
  - intros r s' p Hstep Hth Hout.
    destruct (step_copier _ _ _ _ Hi Hstep)
      as (t & ev & t' & Hth0 & Hts & _ & _ & _ & Hth' & _).
    rewrite Hth in Hth0. injection Hth0 as <-.
    rewrite (inv_params c s Hinv) in Hts. simpl in Hts.
    destruct (pstep p r) as [[ev0 p']|]; [|discriminate].
    injection Hts as _ <-. rewrite Hth' in *.
    destruct p' as [[e|e]| | | | | | | | | | | ]; simpl in *;
      try (exfalso; eapply Hout; reflexivity).
    exists e. split; [reflexivity | apply exits_with_deferred].
Qed.

Lemma report_after_stop_and_deadline_witness :
  stop (mkWorld 1 None None (upd no_deadline 0%nat (time_Add 10 copyTimeout))
                no_deadline) = 1.
Proof.
  refine (proj1 (proj2 (proj2 (proj1
    (report_after_stop_and_deadline sample_call no_deadline no_deadline
       [(TMain, RUnit); (TMain, RUnit); (TOut, RVal 0); (TOut, RIO 0 EOF);
        (TOut, RUnit); (TOut, RVal 10); (TOut, RUnit)]
       (mkSys sample_call
              (mkWorld 1 None None (upd no_deadline 0%nat (time_Add 10 copyTimeout))
                       no_deadline)
              (Recv OutErrCh (fun outErr => Recv InErrCh (fun inErr =>
                 Ret (outErr, inErr))))
              (Some (Defer (chan_Send OutErrCh Nil)))
              (Some (doCopy (args_in sample_call)))
              [(TMain, EvGo TOut); (TMain, EvGo TIn);
               (TOut, EvLoad 0); (TOut, EvRead 1%nat 0 EOF);
               (TOut, EvStore 1); (TOut, EvNow 10);
               (TOut, EvSetReadDeadline 0%nat (time_Add 10 copyTimeout))])
       TOut eq_refl (or_introl eq_refl))
    RUnit
    (mkSys sample_call
           (mkWorld 1 (Some Nil) None
                    (upd no_deadline 0%nat (time_Add 10 copyTimeout)) no_deadline)
           (Recv OutErrCh (fun outErr => Recv InErrCh (fun inErr =>
              Ret (outErr, inErr))))
           (Some Exited)
           (Some (doCopy (args_in sample_call)))
           [(TMain, EvGo TOut); (TMain, EvGo TIn);
            (TOut, EvLoad 0); (TOut, EvRead 1%nat 0 EOF);
            (TOut, EvStore 1); (TOut, EvNow 10);
            (TOut, EvSetReadDeadline 0%nat (time_Add 10 copyTimeout));
            (TOut, EvSend OutErrCh Nil)])
    OutErrCh Nil eq_refl eq_refl)))).
Defined.

(** C8: in a [BidiCopy] call, whenever a copier reads, the read is on its
    source; before it the copier made complete passes through the loop and
    then loaded the stop flag, the first action of this pass.  When the
    load returned a value other than 1 the read is its next action.  When it
    returned 1, the copier then read the clock and armed the read deadline
    of its source at [copyTimeout] (not the write timeout) from that
    reading, the read comes next, and the read deadline in force on the
    source at the read is a clock reading of the call plus [copyTimeout]. *)
Theorem read_after_snapshot (c : call) (rdl0 wdl0 : conn -> option Z)
        (ms : list (tid * resp)) (s s' : sys) (i : tid) (r : resp)
        (cn : conn) (nr : Z) (er : error) :
  exec ms (BidiCopy c rdl0 wdl0) = Some s ->
  i = TOut \/ i = TIn ->
  step s (i, r) = Some s' ->
  log s' = log s ++ [(i, EvRead cn nr er)] ->
  cn = src (args_of c i) /\
  exists passes,
    Forall (full_pass (args_of c i)) passes /\
    ((exists v, v <> 1 /\ proj i (log s) = List.concat passes ++ [EvLoad v]) \/
     (exists tn,
         proj i (log s) =
         List.concat passes ++
         [EvLoad 1; EvNow tn;
          EvSetReadDeadline (src (args_of c i)) (time_Add tn copyTimeout)] /\
         exists j tx,
           In (j, EvNow tx) (log s) /\
           rdl (shared s) (src (args_of c i)) = Some (time_Add tx copyTimeout))).
Proof.
  intros Hrun Hi Hstep Hlog. pose proof (inv_reachable _ _ _ _ _ Hrun) as Hinv.
  destruct (step_copier _ _ _ _ Hi Hstep)
    as (t & ev & t' & Hth & Hts & _ & _ & _ & _ & _ & Hlog').
  rewrite Hlog' in Hlog. apply app_inj_tail in Hlog. destruct Hlog as [_ Heq].
  injection Heq as ->.
  rewrite (inv_params c s Hinv) in Hts.
  pose proof (inv_copier c s Hinv i Hi) as Hc. rewrite Hth in Hc.
  destruct Hc as [[rs Hrs] _].
  destruct (at_read _ _ _ _ _ _ _ _ (trun_shape _ _ _ _ Hrs) Hts)
    as (-> & _ & passes & Hf & Hpre).
  split; [reflexivity|]. exists passes. split; [exact Hf|].
  destruct Hpre as [(v & Hv & Hpre) | (tn & Hpre)].
  - left. exists v. split; assumption.
  - right. exists tn. split; [exact Hpre|].
    apply (inv_rdl c s Hinv).
    exists i, (time_Add tn copyTimeout). apply proj_In. rewrite Hpre.
    apply in_or_app. right. simpl. auto.
Qed.

Lemma read_after_snapshot_witness :
  exists passes,
    Forall (full_pass (args_of sample_call TIn)) passes /\
    ((exists v, v <> 1 /\
                [EvLoad 1; EvNow 11;
                 EvSetReadDeadline 0%nat (time_Add 11 copyTimeout)] =
                List.concat passes ++ [EvLoad v]) \/
     (exists tn,
         [EvLoad 1; EvNow 11; EvSetReadDeadline 0%nat (time_Add 11 copyTimeout)] =
         List.concat passes ++
         [EvLoad 1; EvNow tn;
          EvSetReadDeadline (src (args_of sample_call TIn)) (time_Add tn copyTimeout)] /\
         exists j tx,
           In (j, EvNow tx)
              [(TMain, EvGo TOut); (TMain, EvGo TIn);
               (TOut, EvLoad 0); (TOut, EvRead 1%nat 0 EOF);
               (TOut, EvStore 1); (TOut, EvNow 10);
               (TOut, EvSetReadDeadline 0%nat (time_Add 10 copyTimeout));
               (TOut, EvSend OutErrCh Nil);
               (TIn, EvLoad 1); (TIn, EvNow 11);
               (TIn, EvSetReadDeadline 0%nat (time_Add 11 copyTimeout))] /\
           upd (upd no_deadline 0%nat (time_Add 10 copyTimeout))
               0%nat (time_Add 11 copyTimeout) (src (args_of sample_call TIn)) =
           Some (time_Add tx copyTimeout))).
Proof.
  refine (proj2
    (read_after_snapshot sample_call no_deadline no_deadline
       [(TMain, RUnit); (TMain, RUnit); (TOut, RVal 0); (TOut, RIO 0 EOF);
        (TOut, RUnit); (TOut, RVal 10); (TOut, RUnit); (TOut, RUnit);
        (TIn, RVal 1); (TIn, RVal 11); (TIn, RUnit)]
       (mkSys sample_call
              (mkWorld 1 (Some Nil) None
                       (upd (upd no_deadline 0%nat (time_Add 10 copyTimeout))
                            0%nat (time_Add 11 copyTimeout))
                       no_deadline)
              (Recv OutErrCh (fun outErr => Recv InErrCh (fun inErr =>
                 Ret (outErr, inErr))))
              (Some Exited)
              (Some (Loop (Read 0%nat 4096 (fun nr er =>
                 if 0 <? nr
                 then Now (fun now =>
                        SetWriteDeadline 1%nat (time_Add now 5000000000)
                          (Write 1%nat nr (fun nw ew =>
                             if negb (nw =? nr) then Ret (Return ErrShortWrite)
                             else classify true er Nil)))
                 else classify true er Nil))))
              [(TMain, EvGo TOut); (TMain, EvGo TIn);
               (TOut, EvLoad 0); (TOut, EvRead 1%nat 0 EOF);
               (TOut, EvStore 1); (TOut, EvNow 10);
               (TOut, EvSetReadDeadline 0%nat (time_Add 10 copyTimeout));
               (TOut, EvSend OutErrCh Nil);
               (TIn, EvLoad 1); (TIn, EvNow 11);
               (TIn, EvSetReadDeadline 0%nat (time_Add 11 copyTimeout))])
       _ TIn (RIO 0 (Errorf "read tcp: i/o timeout"))
       0%nat 0 (Errorf "read tcp: i/o timeout")
       eq_refl (or_intror eq_refl) eq_refl eq_refl)).
Defined.

(** ** Further properties of doCopy *)

Lemma drop_app_plus (p s : string) (k : nat) :
  drop (String.length p + k) (p ++ s) = drop k s.
Proof. induction p as [|ch p IH]; simpl; [reflexivity | exact IH]. Qed.

(** X1: [isTimeout] looks at the last 11 bytes only: putting any text in front
    of a message of at least 11 bytes does not change the answer. *)
Theorem isTimeout_ignores_prefix (p msg : string) :
  (11 <= String.length msg)%nat ->
  isTimeout (Errorf (p ++ msg)) = isTimeout (Errorf msg).
Proof.
  intros Hl.
  rewrite (isTimeout_total (Errorf (p ++ msg)) (p ++ msg) eq_refl).
  rewrite (isTimeout_total (Errorf msg) msg eq_refl).
  unfold len, ioTimeoutLength. rewrite length_app.
  replace (Z.to_nat (Z.of_nat (String.length p + String.length msg) - 11))
    with (String.length p + Z.to_nat (Z.of_nat (String.length msg) - 11))%nat by lia.
  rewrite drop_app_plus.
  replace (11 <=? Z.of_nat (String.length p + String.length msg)) with true
    by (symmetry; apply Z.leb_le; lia).
  replace (11 <=? Z.of_nat (String.length msg)) with true
    by (symmetry; apply Z.leb_le; lia).
  reflexivity.
Qed.

Lemma isTimeout_ignores_prefix_witness :
  isTimeout (Errorf ("dial tcp 10.0.0.1:443: " ++ "connection refused")) =
  isTimeout (Errorf "connection refused").
Proof.
  apply (isTimeout_ignores_prefix "dial tcp 10.0.0.1:443: " "connection refused").
  simpl. lia.
Defined.

Lemma step_directed (a : args) (t t' : thread) (evs : list event) (r : resp) (ev : event) :
  run_shape a t evs -> tstep a t r = Some (ev, t') -> well_directed a ev.
Proof.
  intros Hshape Ht. locate Hshape Ht; zify_tests; cbn; auto; try (split; [reflexivity | lia]).
Qed.

(** X2: No action of [doCopy] touches anything but its own ends: it reads from
    [src] only (getting between 0 and [len(buf)] bytes), writes to [dst]
    only (never an empty slice, never more than the buffer), arms write
    deadlines on [dst] only, stores nothing but 1 into the stop flag, sends
    on its own channel only, and neither receives nor starts a goroutine. *)
Theorem doCopy_well_directed (a : args) (rs : list resp) (t : thread)
        (evs : list event) :
  trun a rs (doCopy a) = Some (t, evs) -> Forall (well_directed a) evs.
Proof.
  intros Hrun.
  cut (run_shape a t evs /\ Forall (well_directed a) evs); [intros [_ H]; exact H|].
  revert rs t evs Hrun. apply trun_invariant.
  - split; [apply run_shape_start | constructor].
  - intros t evs r ev t' [Hshape IH] Ht.
    split; [eapply run_shape_step; eassumption|].
    apply Forall_app. split; [exact IH|].
    constructor; [|constructor]. eapply step_directed; eassumption.
Qed.

Lemma doCopy_well_directed_witness :
  Forall (well_directed sample_args)
         [EvLoad 0; EvRead 1%nat 3 Nil;
          EvNow 10; EvSetWriteDeadline 0%nat 5000000010; EvWrite 0%nat 3 3 Nil].
Proof.
  exact (doCopy_well_directed sample_args
           [RVal 0; RIO 3 Nil; RVal 10; RUnit; RIO 3 Nil]
           (doCopy sample_args)
           [EvLoad 0; EvRead 1%nat 3 Nil;
            EvNow 10; EvSetWriteDeadline 0%nat 5000000010; EvWrite 0%nat 3 3 Nil]
           eq_refl).
Defined.

(** X3: Every write of [doCopy] is for exactly the bytes of the read just
    before it, and between the two the goroutine reads the clock and arms
    the write deadline of [dst] at [writeTimeout] from that reading. *)
Theorem write_follows_read_and_deadline (a : args) (rs : list resp) (t : thread)
        (evs : list event) :
  trun a rs (doCopy a) = Some (t, evs) ->
  forall pre c n nw ew post,
    evs = pre ++ EvWrite c n nw ew :: post ->
    c = dst a /\ 0 < n <= buf a /\
    exists pre' er tw,
      pre = pre' ++ [EvRead (src a) n er; EvNow tw;
                     EvSetWriteDeadline (dst a) (time_Add tw (writeTimeout a))].
Proof.
  revert rs t evs.
  cut (forall rs t evs, trun a rs (doCopy a) = Some (t, evs) ->
         run_shape a t evs /\
         forall pre c n nw ew post,
           evs = pre ++ EvWrite c n nw ew :: post ->
           c = dst a /\ 0 < n <= buf a /\
           exists pre' er tw,
             pre = pre' ++ [EvRead (src a) n er; EvNow tw;
                            EvSetWriteDeadline (dst a) (time_Add tw (writeTimeout a))]).
  { intros H rs t evs Hrun. exact (proj2 (H rs t evs Hrun)). }
  apply trun_invariant.
  - split; [apply run_shape_start|].
    intros pre c n nw ew post H. destruct pre; discriminate H.
  - intros t evs r ev t' [Hshape IH] Ht.
    split; [eapply run_shape_step; eassumption|].
    intros pre c n nw ew post Heq.
    apply snoc_split in Heq. destruct Heq as [(-> & -> & ->) | (post' & -> & ->)].
    + destruct (at_write _ _ _ _ _ _ _ _ _ Hshape Ht) as (Hc & _ & Hpre & _).
      pose proof (step_directed _ _ _ _ _ _ Hshape Ht) as [_ Hn].
      split; [exact Hc|]. split; [exact Hn | exact Hpre].
    + exact (IH _ _ _ _ _ _ eq_refl).
Qed.

Lemma write_follows_read_and_deadline_witness :
  exists pre' er tw,
    [EvLoad 0; EvRead 1%nat 3 Nil; EvNow 10; EvSetWriteDeadline 0%nat 5000000010] =
    pre' ++ [EvRead (src sample_args) 3 er; EvNow tw;
             EvSetWriteDeadline (dst sample_args)
               (time_Add tw (writeTimeout sample_args))].
Proof.
  exact (proj2 (proj2
    (write_follows_read_and_deadline sample_args
       [RVal 0; RIO 3 Nil; RVal 10; RUnit; RIO 3 Nil]
       (doCopy sample_args)
       [EvLoad 0; EvRead 1%nat 3 Nil;
        EvNow 10; EvSetWriteDeadline 0%nat 5000000010; EvWrite 0%nat 3 3 Nil]
       eq_refl
       [EvLoad 0; EvRead 1%nat 3 Nil; EvNow 10; EvSetWriteDeadline 0%nat 5000000010]
       0%nat 3 3 Nil [] eq_refl))).
Defined.

Lemma bytes_read_app (l l' : list event) :
  bytes_read (l ++ l') = bytes_read l + bytes_read l'.
Proof.
  induction l as [|ev l IH]; simpl; [reflexivity|].
  destruct ev; rewrite IH; lia.
Qed.

Lemma bytes_written_app (l l' : list event) :
  bytes_written (l ++ l') = bytes_written l + bytes_written l'.
Proof.
  induction l as [|ev l IH]; simpl; [reflexivity|].
  destruct ev; rewrite IH; lia.
Qed.

Lemma pass_balanced (a : args) (tr : list event) :
  full_pass a tr -> bytes_written tr = bytes_read tr.
Proof.
  unfold full_pass, loop_body. intros H.
  explore H ltac:(try discriminate; zify_tests; cbn; lia).
Qed.

Lemma return_balanced (a : args) (tr : list event) (e : error) :
  ptrace (loop_body a Nil) tr (Ret (Return e)) -> e <> ErrShortWrite ->
  bytes_written tr = bytes_read tr.
Proof.
  unfold loop_body. intros H Hne.
  explore H ltac:(try discriminate;
                  repeat match goal with
                         | E : Ret _ = Ret _ |- _ => injection E as ?; subst
                         end;
                  try congruence; zify_tests; cbn; lia).
Qed.

Lemma passes_balanced (a : args) (passes : list (list event)) :
  Forall (full_pass a) passes ->
  bytes_written (List.concat passes) = bytes_read (List.concat passes).
Proof.
  induction 1 as [|tr passes Htr _ IH]; simpl; [reflexivity|].
  rewrite bytes_read_app, bytes_written_app, IH, (pass_balanced a tr Htr).
  reflexivity.
Qed.

(** X4: No byte is dropped silently.  Whenever [doCopy] is at the top of its
    loop, its writes have reported exactly as many bytes as its reads
    returned; and when it has finished with an error other than
    [io.ErrShortWrite], every byte it read was written. *)
Theorem doCopy_conserves_bytes (a : args) (rs : list resp) (t : thread)
        (evs : list event) :
  trun a rs (doCopy a) = Some (t, evs) ->
  (forall r v t', tstep a t r = Some (EvLoad v, t') ->
                  bytes_written evs = bytes_read evs) /\
  (forall pre ch e, evs = pre ++ [EvSend ch e] -> e <> ErrShortWrite ->
                    bytes_written evs = bytes_read evs).
Proof.
  intros Hrun. pose proof (trun_shape _ _ _ _ Hrun) as Hshape. split.
  - intros r v t' Ht. locate Hshape Ht.
    rewrite app_nil_r. apply (passes_balanced a). assumption.
  - intros pre ch e Heq Hne.
    assert (Hin : In (EvSend ch e) evs) by (rewrite Heq; apply in_snoc; auto).
    destruct (sent_is_exited _ _ _ _ _ _ Hrun Hin) as [-> _].
    inversion Hshape as [| | passes last e0 tr Hf Hl Hp Hevs]; subst.
    unfold deferred in Hp. explore Hp ltac:(try discriminate).
    assert (He : e0 = e).
    { match goal with
      | H : _ = pre ++ [EvSend ch e] |- _ =>
          rewrite !app_assoc in H;
          change [EvStore 1; EvNow v;
                  EvSetReadDeadline (dst a) (time_Add v copyTimeout);
                  EvSend (errCh a) e0]
            with ([EvStore 1; EvNow v;
                   EvSetReadDeadline (dst a) (time_Add v copyTimeout)] ++
                  [EvSend (errCh a) e0]) in H;
          rewrite app_assoc in H; apply app_inj_tail in H;
          destruct H as [_ H]; injection H as _ H; exact H
      end. }
    subst e0.
    rewrite !bytes_read_app, !bytes_written_app.
    rewrite (passes_balanced a passes Hf), (return_balanced a last e Hl Hne).
    reflexivity.
Qed.

Lemma doCopy_conserves_bytes_witness :
  bytes_written
    [EvLoad 0; EvRead 1%nat 3 Nil;
     EvNow 10; EvSetWriteDeadline 0%nat 5000000010; EvWrite 0%nat 3 3 Nil;
     EvLoad 0; EvRead 1%nat 0 EOF;
     EvStore 1; EvNow 20; EvSetReadDeadline 0%nat 1000000020;
     EvSend OutErrCh Nil] =
  bytes_read
    [EvLoad 0; EvRead 1%nat 3 Nil;
     EvNow 10; EvSetWriteDeadline 0%nat 5000000010; EvWrite 0%nat 3 3 Nil;
     EvLoad 0; EvRead 1%nat 0 EOF;
     EvStore 1; EvNow 20; EvSetReadDeadline 0%nat 1000000020;
     EvSend OutErrCh Nil].
Proof.
  refine (proj2
    (doCopy_conserves_bytes sample_args
       [RVal 0; RIO 3 Nil; RVal 10; RUnit; RIO 3 Nil;
        RVal 0; RIO 0 EOF; RUnit; RVal 20; RUnit; RUnit]
       Exited
       [EvLoad 0; EvRead 1%nat 3 Nil;
        EvNow 10; EvSetWriteDeadline 0%nat 5000000010; EvWrite 0%nat 3 3 Nil;
        EvLoad 0; EvRead 1%nat 0 EOF;
        EvStore 1; EvNow 20; EvSetReadDeadline 0%nat 1000000020;
        EvSend OutErrCh Nil]
       eq_refl)
    [EvLoad 0; EvRead 1%nat 3 Nil;
     EvNow 10; EvSetWriteDeadline 0%nat 5000000010; EvWrite 0%nat 3 3 Nil;
     EvLoad 0; EvRead 1%nat 0 EOF;
     EvStore 1; EvNow 20; EvSetReadDeadline 0%nat 1000000020]
    OutErrCh Nil eq_refl _).
  discriminate.
Defined.

Lemma timeout_shaped_not_EOF (er : error) : timeout_shaped er -> er <> Nil /\ er <> EOF.
Proof.
  intros Hs.
  assert (Hne : er <> Nil) by (intros ->; destruct Hs as (es & He & _); discriminate He).
  split; [exact Hne|]. intros ->.
  apply (proj1 (timeout_shaped_iff EOF Hne)) in Hs. discriminate Hs.
Qed.

(** A pass in which the stop flag is not loaded as 1 and the read returns
    no bytes and a timeout-shaped error. *)
Lemma idle_pass (a : args) (v : Z) (er : error) :
  0 <= buf a -> v <> 1 -> timeout_shaped er ->
  trun a [RVal v; RIO 0 er] (doCopy a) =
  Some (doCopy a, [EvLoad v; EvRead (src a) 0 er]).
Proof.
  intros Hb Hv Hs. destruct (timeout_shaped_not_EOF er Hs) as [Hne Heof].
  destruct (classified_pass a v 0 0 er 0 0 Nil) as (t' & Hpass & _ & _ & Hcont & _);
    [lia | exact Hne | lia |].
  rewrite (Hcont Heof Hs Hv) in Hpass.
  unfold iteration, pass_trace in Hpass.
  apply Z.eqb_neq in Hv. rewrite Hv in Hpass. exact Hpass.
Qed.

(** X5: While the stop flag is not set, read timeouts never end [doCopy]:
    after any number of passes whose read returns no bytes and a
    timeout-shaped error, the goroutine is again at the top of its loop,
    having done nothing but load the flag and read; it has stored nothing
    and reported nothing. *)
Theorem unexpected_timeouts_spin (a : args) (ps : list (Z * error)) :
  0 <= buf a ->
  Forall (fun p => fst p <> 1 /\ timeout_shaped (snd p)) ps ->
  trun a (idle_resps ps) (doCopy a) = Some (doCopy a, idle_events a ps).
Proof.
  intros Hb Hps. induction Hps as [|[v er] ps [Hv Hs] _ IH]; [reflexivity|].
  change (idle_resps ((v, er) :: ps)) with ([RVal v; RIO 0 er] ++ idle_resps ps).
  change (idle_events a ((v, er) :: ps))
    with ([EvLoad v; EvRead (src a) 0 er] ++ idle_events a ps).
  rewrite trun_app, (idle_pass a v er Hb Hv Hs), IH. reflexivity.
Qed.

Lemma unexpected_timeouts_spin_witness :
  trun sample_args
       (idle_resps [(0, Errorf "read tcp: i/o timeout");
                    (0, Errorf "read tcp: i/o timeout");
                    (0, Errorf "i/o timeout")])
       (doCopy sample_args) =
  Some (doCopy sample_args,
        idle_events sample_args
          [(0, Errorf "read tcp: i/o timeout");
           (0, Errorf "read tcp: i/o timeout");
           (0, Errorf "i/o timeout")]).
Proof.
  apply unexpected_timeouts_spin.
  - cbn. lia.
  - repeat constructor; try discriminate.
    + exists "read tcp: i/o timeout"%string. split; [reflexivity|].
      exists "read tcp: "%string. reflexivity.
    + exists "read tcp: i/o timeout"%string. split; [reflexivity|].
      exists "read tcp: "%string. reflexivity.
    + exists "i/o timeout"%string. split; [reflexivity|].
      exists ""%string. reflexivity.
Defined.

(** ** Further properties of a BidiCopy call *)

Lemma out_of_loop_stays (a : args) (t t' : thread) (r : resp) (ev : event) :
  ~ in_loop t -> tstep a t r = Some (ev, t') -> ~ in_loop t'.
Proof.
  destruct t as [p | p |]; simpl; intros Hn Ht; [tauto | | discriminate].
  destruct (pstep p r) as [[ev0 p']|]; [|discriminate].
  injection Ht as _ <-. destruct p'; simpl; tauto.
Qed.

(** A goroutine that has stored into the stop flag has left its loop. *)
Lemma store_leaves_loop (a : args) (rs : list resp) (t : thread) (evs : list event)
      (v : Z) :
  trun a rs (doCopy a) = Some (t, evs) -> In (EvStore v) evs -> ~ in_loop t.
Proof.
  intros Hrun.
  cut (run_shape a t evs /\ (In (EvStore v) evs -> ~ in_loop t));
    [intros [_ H]; exact H|].
  revert rs t evs Hrun. apply trun_invariant.
  - split; [apply run_shape_start | intros []].
  - intros t evs r ev t' [Hshape IH] Ht.
    split; [eapply run_shape_step; eassumption|].
    intros Hin. apply in_snoc in Hin. destruct Hin as [Hin | <-].
    + eapply out_of_loop_stays; [exact (IH Hin) | exact Ht].
    + destruct (at_store _ _ _ _ _ _ Hshape Ht) as [_ [e ->]].
      eapply out_of_loop_stays; [|exact Ht]. simpl. tauto.
Qed.

(** What can set the stop flag: a step after which it is 1 either found it
    1 or is the store of a copier. *)
Lemma stop_set_by_store (c : call) (s s' : sys) (m : tid * resp) :
  session_inv c s -> step s m = Some s' -> stop (shared s') = 1 ->
  stop (shared s) = 1 \/
  exists j, (j = TOut \/ j = TIn) /\ log s' = log s ++ [(j, EvStore 1)].
Proof.
  intros Hinv Hstep H1. destruct m as [[| |] r].
  - left. destruct (step_main _ _ _ Hstep) as (ev & p' & Hp & Heff & _).
    pose proof (main_step_cases _ _ _ _ _ (inv_main c s Hinv) Hp) as Hc.
    rewrite (effect_stop _ _ _ Heff) in H1.
    destruct Hc as [[-> _] | [[-> _] | [(e & -> & _) | (e & e0 & -> & _)]]]; exact H1.
  - destruct (step_copier s s' TOut r (or_introl eq_refl) Hstep)
      as (t & ev & t' & Hth & Hts & Heff & _ & _ & _ & _ & Hlog).
    pose proof (inv_copier c s Hinv TOut (or_introl eq_refl)) as Hc.
    rewrite Hth in Hc. destruct Hc as [[rs Hrs] _].
    rewrite (inv_params c s Hinv) in Hts.
    pose proof (copier_event _ _ _ _ _ _ (trun_shape _ _ _ _ Hrs) Hts) as Hev.
    rewrite (effect_stop _ _ _ Heff) in H1.
    destruct ev; try (left; exact H1).
    right. exists TOut. split; [auto|]. subst v. exact Hlog.
  - destruct (step_copier s s' TIn r (or_intror eq_refl) Hstep)
      as (t & ev & t' & Hth & Hts & Heff & _ & _ & _ & _ & Hlog).
    pose proof (inv_copier c s Hinv TIn (or_intror eq_refl)) as Hc.
    rewrite Hth in Hc. destruct Hc as [[rs Hrs] _].
    rewrite (inv_params c s Hinv) in Hts.
    pose proof (copier_event _ _ _ _ _ _ (trun_shape _ _ _ _ Hrs) Hts) as Hev.
    rewrite (effect_stop _ _ _ Heff) in H1.
    destruct ev; try (left; exact H1).
    right. exists TIn. split; [auto|]. subst v. exact Hlog.
Qed.

Lemma stop_has_cause (c : call) (rdl0 wdl0 : conn -> option Z)
      (ms : list (tid * resp)) (s : sys) :
  exec ms (BidiCopy c rdl0 wdl0) = Some s ->
  stop (shared s) = 1 ->
  exists j, (j = TOut \/ j = TIn) /\ In (j, EvStore 1) (log s).
Proof.
  intros Hrun.
  cut (session_inv c s /\
       (stop (shared s) = 1 ->
        exists j, (j = TOut \/ j = TIn) /\ In (j, EvStore 1) (log s)));
    [intros [_ H]; exact H|].
  revert Hrun.
  apply (exec_invariant
           (fun s => session_inv c s /\
                     (stop (shared s) = 1 ->
                      exists j, (j = TOut \/ j = TIn) /\ In (j, EvStore 1) (log s)))).
  - intros s0 m s1 [Hinv IH] Hstep.
    split; [eapply inv_step; eassumption|].
    intros H1.
    assert (Hmono : forall x, In x (log s0) -> In x (log s1)).
    { intros x Hx. destruct m as [i r]. destruct i.
      - destruct (step_main _ _ _ Hstep) as (ev & p' & _ & _ & _ & _ & -> & _).
        apply in_or_app. auto.
      - destruct (step_copier s0 s1 TOut r (or_introl eq_refl) Hstep)
          as (t & ev & t' & _ & _ & _ & _ & _ & _ & _ & ->).
        apply in_or_app. auto.
      - destruct (step_copier s0 s1 TIn r (or_intror eq_refl) Hstep)
          as (t & ev & t' & _ & _ & _ & _ & _ & _ & _ & ->).
        apply in_or_app. auto. }
    destruct (stop_set_by_store _ _ _ _ Hinv Hstep H1) as [H0 | (j & Hj & Hlog)].
    + destruct (IH H0) as (j & Hj & Hin). exists j. split; [exact Hj | apply Hmono; exact Hin].
    + exists j. split; [exact Hj|]. rewrite Hlog. apply in_snoc. auto.
  - split; [apply inv_init | intros H; discriminate H].
Qed.

(** X6: The stop flag is set only by a copier that has left its loop: whenever
    it is 1, one of the copiers has run the store of its deferred function
    and is no longer in its loop; and when a copier loads it as 1, it is the
    copier of the other direction that has done so. *)
Theorem stop_means_peer_left_loop (c : call) (rdl0 wdl0 : conn -> option Z)
        (ms : list (tid * resp)) (s : sys) :
  exec ms (BidiCopy c rdl0 wdl0) = Some s ->
  (stop (shared s) = 1 ->
   exists j t, (j = TOut \/ j = TIn) /\ In (j, EvStore 1) (log s) /\
               thread_of s j = Some t /\ ~ in_loop t) /\
  (forall i r s',
      i = TOut \/ i = TIn ->
      step s (i, r) = Some s' -> log s' = log s ++ [(i, EvLoad 1)] ->
      exists t, In (other i, EvStore 1) (log s) /\
                thread_of s (other i) = Some t /\ ~ in_loop t).
Proof.
  intros Hrun. pose proof (inv_reachable _ _ _ _ _ Hrun) as Hinv.
  assert (Hleft : forall j, j = TOut \/ j = TIn -> In (j, EvStore 1) (log s) ->
                            exists t, thread_of s j = Some t /\ ~ in_loop t).
  { intros j Hj Hin. apply proj_In in Hin.
    destruct (copier_run c s j Hinv Hj) as (t & rs & Ht & Hrs & _).
    { intros Hnil. rewrite Hnil in Hin. contradiction. }
    exists t. split; [exact Ht|]. eapply store_leaves_loop; eassumption. }
  split.
  - intros H1. destruct (stop_has_cause _ _ _ _ _ Hrun H1) as (j & Hj & Hin).
    destruct (Hleft j Hj Hin) as (t & Ht & Hn). exists j, t. auto.
  - intros i r s' Hi Hstep Hlog.
    destruct (step_copier _ _ _ _ Hi Hstep)
      as (t & ev & t' & Hth & Hts & Heff & _ & _ & _ & _ & Hlog').
    rewrite Hlog' in Hlog. apply app_inj_tail in Hlog. destruct Hlog as [_ Heq].
    injection Heq as ->.
    pose proof (effect_load _ _ _ Heff) as H1. symmetry in H1.
    destruct (stop_has_cause _ _ _ _ _ Hrun H1) as (j & Hj & Hin).
    assert (Hji : j = other i).
    { destruct (Hleft j Hj Hin) as (tj & Htj & Hn).
      pose proof (inv_copier c s Hinv i Hi) as Hc.
      rewrite Hth in Hc. destruct Hc as [[rs Hrs] _].
      rewrite (inv_params c s Hinv) in Hts.
      destruct (at_load _ _ _ _ _ _ (trun_shape _ _ _ _ Hrs) Hts) as [Ht0 _].
      destruct Hi as [-> | ->], Hj as [-> | ->]; try reflexivity; exfalso.
      all: rewrite Hth in Htj; injection Htj as <-; subst t; apply Hn; exact I. }
    subst j.
    destruct (Hleft (other i)) as (to & Hto & Hn);
      [destruct Hi as [-> | ->]; simpl; auto | exact Hin |].
    exists to. auto.
Qed.

Lemma stop_means_peer_left_loop_witness :
  exec sample_schedule (BidiCopy sample_call no_deadline no_deadline) =
    Some sample_final /\
  stop (shared sample_final) = 1 /\
  exists j t, (j = TOut \/ j = TIn) /\ In (j, EvStore 1) (log sample_final) /\
              thread_of sample_final j = Some t /\ ~ in_loop t.
Proof.
  split; [reflexivity|]. split; [reflexivity|].
  exact (proj1 (stop_means_peer_left_loop sample_call no_deadline no_deadline
                  sample_schedule sample_final eq_refl) eq_refl).
Defined.

(** ** What [doCopy] reports, and what [BidiCopy] returns *)

Lemma return_kind (a : args) (last : list event) (e : error) :
  ptrace (loop_body a Nil) last (Ret (Return e)) ->
  e = Nil \/ e = ErrShortWrite \/
  exists nr msg, e = Errorf msg /\ In (EvRead (src a) nr e) last /\
                 isTimeout e = Some false.
Proof.
  intros H. unfold loop_body in H.
  explore H ltac:(try discriminate;
                  repeat match goal with
                         | E : Ret _ = Ret _ |- _ => injection E as ?; subst
                         end;
                  first [ left; reflexivity
                        | right; left; reflexivity
                        | right; right; eexists _, _;
                          split; [reflexivity|];
                          split; [cbn; eauto 12 | assumption] ]).
Qed.

Lemma at_send_kind (a : args) (t t' : thread) (evs : list event) (r : resp)
      (ch : chan) (e : error) :
  run_shape a t evs -> tstep a t r = Some (EvSend ch e, t') ->
  e = Nil \/ e = ErrShortWrite \/
  exists nr msg, e = Errorf msg /\ In (EvRead (src a) nr e) evs /\
                 isTimeout e = Some false.
Proof.
  intros Hshape Ht. locate Hshape Ht.
  match goal with
  | H : ptrace (loop_body _ _) _ (Ret (Return _)) |- _ =>
      apply return_kind in H;
        destruct H as [H | [H | (nr & msg & H & Hin & Hto)]];
        [ left; exact H | right; left; exact H | ];
        right; right; exists nr, msg;
        split; [exact H|]; split; [|exact Hto];
        apply in_or_app; right; apply in_or_app; left; exact Hin
  end.
Qed.

(** What a run of [doCopy] sends on its channel is nil, [io.ErrShortWrite],
    or the error of one of its reads that is neither [io.EOF] nor a
    timeout. *)
Lemma reported_error_kind (a : args) (rs : list resp) (t : thread)
      (evs : list event) (ch : chan) (e : error) :
  trun a rs (doCopy a) = Some (t, evs) -> In (EvSend ch e) evs ->
  e = Nil \/ e = ErrShortWrite \/
  exists nr msg, e = Errorf msg /\ In (EvRead (src a) nr e) evs /\
                 isTimeout e = Some false.
Proof.
  intros Hrun.
  cut (run_shape a t evs /\
       (In (EvSend ch e) evs ->
        e = Nil \/ e = ErrShortWrite \/
        exists nr msg, e = Errorf msg /\ In (EvRead (src a) nr e) evs /\
                       isTimeout e = Some false));
    [intros [_ H]; exact H|].
  revert rs t evs Hrun. apply trun_invariant.
  - split; [apply run_shape_start | intros []].
  - intros t evs r ev t' [Hshape IH] Ht.
    split; [eapply run_shape_step; eassumption|].
    intros Hin. apply in_snoc in Hin.
    assert (Hgo : e = Nil \/ e = ErrShortWrite \/
                  exists nr msg, e = Errorf msg /\ In (EvRead (src a) nr e) evs /\
                                 isTimeout e = Some false).
    { destruct Hin as [Hin | <-]; [exact (IH Hin)|].
      exact (at_send_kind _ _ _ _ _ _ _ Hshape Ht). }
    destruct Hgo as [H | [H | (nr & msg & H & Hr & Hto)]]; auto.
    right; right. exists nr, msg. split; [exact H|]. split; [|exact Hto].
    apply in_or_app. left. exact Hr.
Qed.

Lemma not_timeout_shaped (e : error) :
  e <> Nil -> isTimeout e = Some false -> ~ timeout_shaped e.
Proof.
  intros Hn Hf. apply (timeout_shaped_iff e Hn). exact Hf.
Qed.

(** X7: What [BidiCopy] returns: [outErr] is nil, [io.ErrShortWrite], or the
    error of a read from [in] made by the copier towards [out]; [inErr] is
    nil, [io.ErrShortWrite], or the error of a read from [out] made by the
    copier towards [in].  Neither is ever [io.EOF], and neither ever has a
    text ending with "i/o timeout": the end of a stream and the timeouts that
    pace the loop are not reported to the caller. *)
Theorem BidiCopy_result_provenance (c : call) (rdl0 wdl0 : conn -> option Z)
        (ms : list (tid * resp)) (s : sys) (outErr inErr : error) :
  exec ms (BidiCopy c rdl0 wdl0) = Some s ->
  returned s = Some (outErr, inErr) ->
  (outErr = Nil \/ outErr = ErrShortWrite \/
   exists nr, In (TOut, EvRead (in_ c) nr outErr) (log s)) /\
  (inErr = Nil \/ inErr = ErrShortWrite \/
   exists nr, In (TIn, EvRead (out c) nr inErr) (log s)) /\
  outErr <> EOF /\ inErr <> EOF /\
  ~ timeout_shaped outErr /\ ~ timeout_shaped inErr.
Proof.
  intros Hrun Hret. pose proof (inv_reachable _ _ _ _ _ Hrun) as Hinv.
  unfold returned in Hret.
  destruct (gmain s) as [[oe ie]| | | | | | | | | | | ] eqn:Hg; try discriminate Hret.
  injection Hret as -> ->.
  pose proof (inv_main c s Hinv) as Hm. rewrite Hg in Hm.
  apply main_returned in Hm.
  assert (Hkind : forall i ch e,
             i = TOut \/ i = TIn -> ch = errCh (args_of c i) -> ch_tid ch = i ->
             In (EvRecv ch e) (proj TMain (log s)) ->
             e = Nil \/ e = ErrShortWrite \/
             exists nr msg, e = Errorf msg /\
                            In (i, EvRead (src (args_of c i)) nr e) (log s) /\
                            isTimeout e = Some false).
  { intros i ch e Hi Hch Htid Hin.
    destruct (inv_recv c s Hinv ch e Hin) as [Hsent _]. rewrite Htid in Hsent.
    destruct (copier_run c s i Hinv Hi) as (t & rs & _ & Hrs & _).
    { intros Hnil. rewrite Hnil in Hsent. contradiction. }
    destruct (reported_error_kind _ _ _ _ _ _ Hrs Hsent)
      as [H | [H | (nr & msg & H & Hr & Hto)]]; auto.
    right; right. exists nr, msg. split; [exact H|]. split; [|exact Hto].
    apply proj_In. exact Hr. }
  assert (HO : outErr = Nil \/ outErr = ErrShortWrite \/
               exists nr msg, outErr = Errorf msg /\
                              In (TOut, EvRead (in_ c) nr outErr) (log s) /\
                              isTimeout outErr = Some false).
  { apply (Hkind TOut OutErrCh outErr); auto. rewrite Hm. simpl. auto. }
  assert (HI : inErr = Nil \/ inErr = ErrShortWrite \/
               exists nr msg, inErr = Errorf msg /\
                              In (TIn, EvRead (out c) nr inErr) (log s) /\
                              isTimeout inErr = Some false).
  { apply (Hkind TIn InErrCh inErr); auto. rewrite Hm. simpl. auto. }
  assert (Hno : forall e, e <> Nil -> isTimeout e = Some false -> ~ timeout_shaped e)
    by exact not_timeout_shaped.
  assert (Hnil : ~ timeout_shaped Nil).
  { intros (es & He & _). discriminate He. }
  split; [|split; [|split; [|split; [|split]]]].
  - destruct HO as [H | [H | (nr & msg & _ & H & _)]]; eauto.
  - destruct HI as [H | [H | (nr & msg & _ & H & _)]]; eauto.
  - destruct HO as [-> | [-> | (nr & msg & -> & _)]]; discriminate.
  - destruct HI as [-> | [-> | (nr & msg & -> & _)]]; discriminate.
  - destruct HO as [-> | [-> | (nr & msg & -> & _ & Hto)]];
      [exact Hnil | apply Hno; [discriminate | reflexivity] | apply Hno; [discriminate | exact Hto]].
  - destruct HI as [-> | [-> | (nr & msg & -> & _ & Hto)]];
      [exact Hnil | apply Hno; [discriminate | reflexivity] | apply Hno; [discriminate | exact Hto]].
Qed.

Lemma BidiCopy_result_provenance_witness :
  exec sample_schedule (BidiCopy sample_call no_deadline no_deadline) =
    Some sample_final /\
  returned sample_final = Some (Nil, Nil) /\
  ~ timeout_shaped Nil.
Proof.
  split; [reflexivity|]. split; [reflexivity|].
  exact (proj1 (proj2 (proj2 (proj2 (proj2
           (BidiCopy_result_provenance sample_call no_deadline no_deadline
              sample_schedule sample_final Nil Nil eq_refl eq_refl)))))).
Defined.

(** ** Progress: a call that has not returned is never stuck *)

Ltac offer r :=
  exists r; do 3 eexists;
  split; [cbn; reflexivity | cbn; rewrite ?Z.eqb_refl; reflexivity].

Lemma loop_point_progress (a : args) (w : world) (tr : list event) (p : prog ctl) :
  0 <= buf a ->
  ptrace (loop_body a Nil) tr p -> is_ret p = false ->
  exists r ev p' w', pstep p r = Some (ev, p') /\ effect w ev = Some w'.
Proof.
  intros Hbuf H Hret. apply Z.leb_le in Hbuf. unfold loop_body in H.
  explore H ltac:(try discriminate Hret;
                  try (exfalso;
                       match goal with
                       | E : isTimeout (Errorf ?m) = None |- _ =>
                           exact (isTimeout_some (Errorf m) ltac:(discriminate) E)
                       end);
                  first [ offer RUnit
                        | offer (RVal (stop w))
                        | exists (RIO 0 EOF); do 3 eexists;
                          split; [cbn; rewrite Hbuf; reflexivity | reflexivity]
                        | offer (RIO 0 Nil) ]).
Qed.

Lemma deferred_point_progress (a : args) (w : world) (e : error)
      (tr : list event) (p : prog unit) :
  slot w (errCh a) = None ->
  ptrace (deferred a e) tr p -> is_ret p = false ->
  exists r ev p' w', pstep p r = Some (ev, p') /\ effect w ev = Some w'.
Proof.
  intros Hslot H Hret. unfold deferred in H.
  explore H ltac:(try discriminate Hret;
                  first [ offer (RVal 0)
                        | exists RUnit; do 3 eexists;
                          split; [cbn; reflexivity
                                 | cbn; rewrite ?Hslot; reflexivity] ]).
Qed.

(** A copier that has not finished can act, whatever the shared state:
    nothing in [doCopy] waits, except the send, and its channel is empty. *)
Lemma thread_progress (a : args) (w : world) (t : thread) (evs : list event) :
  0 <= buf a -> slot w (errCh a) = None ->
  run_shape a t evs -> t <> Exited ->
  exists r ev t' w', tstep a t r = Some (ev, t') /\ effect w ev = Some w'.
Proof.
  intros Hbuf Hslot Hshape Hne.
  destruct Hshape as [passes tr p Hf Hp Hr | passes last e tr p Hf Hl Hp Hr
                     | passes last e tr Hf Hl Hp]; [| |congruence].
  - destruct (loop_point_progress a w tr p Hbuf Hp Hr) as (r & ev & p' & w' & Hs & He).
    exists r, ev, (resume a p'), w'. simpl. rewrite Hs. auto.
  - destruct (deferred_point_progress a w e tr p Hslot Hp Hr)
      as (r & ev & p' & w' & Hs & He).
    exists r, ev, (finish p'), w'. simpl. rewrite Hs. auto.
Qed.

Lemma main_next (tr : list event) (p : prog (error * error)) :
  ptrace BidiCopy_body tr p ->
  (exists g p', p = Go g p') \/
  (exists ch k, p = Recv ch k /\ In (EvGo (ch_tid ch)) tr /\
                forall e, ~ In (EvRecv ch e) tr) \/
  (exists r, p = Ret r).
Proof.
  intros H. unfold BidiCopy_body in H.
  explore H ltac:(first [ left; eexists _, _; reflexivity
                        | right; right; eexists; reflexivity
                        | right; left; eexists _, _; split; [reflexivity|];
                          split; [simpl; tauto|];
                          intros e0 Hin; simpl in Hin;
                          repeat (destruct Hin as [Hin | Hin]; [discriminate Hin|]);
                          exact Hin ]).
Qed.

(** X8: Deadlock freedom.  In every state a [BidiCopy] call can reach, as long
    as it has not returned, some goroutine can act: the caller's goroutine
    (a go statement, or a receive whose channel is full), or else, when the
    caller waits at a receive on an empty channel, the copier that sends on
    that channel: it has not finished and is not blocked.  The length of a
    buffer is not negative. *)
Theorem BidiCopy_never_stuck (c : call) (rdl0 wdl0 : conn -> option Z)
        (ms : list (tid * resp)) (s : sys) :
  0 <= bufOut c -> 0 <= bufIn c ->
  exec ms (BidiCopy c rdl0 wdl0) = Some s ->
  returned s = None ->
  exists m s',
    step s m = Some s' /\
    (fst m = TMain \/
     exists ch k, gmain s = Recv ch k /\ slot (shared s) ch = None /\
                  fst m = ch_tid ch).
Proof.
  intros HbO HbI Hrun Hret. pose proof (inv_reachable _ _ _ _ _ Hrun) as Hinv.
  destruct (main_next _ _ (inv_main c s Hinv))
    as [(g & p' & Hg) | [(ch & k & Hg & Hgo & Hnorecv) | (r & Hg)]].
  - exists (TMain, RUnit). unfold step. rewrite Hg. simpl. eexists.
    split; [reflexivity | left; reflexivity].
  - destruct (slot (shared s) ch) as [e|] eqn:Hslot.
    + exists (TMain, RErr e). eexists.
      split; [apply (main_recv_step s ch k e Hg Hslot) | left; reflexivity].
    + set (i := ch_tid ch).
      assert (Hi : i = TOut \/ i = TIn) by (destruct ch; simpl; auto).
      assert (Hch : errCh (args_of c i) = ch) by (destruct ch; reflexivity).
      pose proof (inv_copier c s Hinv i Hi) as Hc.
      destruct (thread_of s i) as [t|] eqn:Hth; [|destruct Hc as [_ Hc]; contradiction].
      destruct Hc as [[rs Hrs] _].
      assert (Hne : t <> Exited).
      { intros ->. destruct (exited_trace _ _ _ Hrs) as (pre & e & tn & Hevs).
        assert (Hsent : In (EvSend ch e) (proj (ch_tid ch) (log s))).
        { fold i. rewrite Hevs, <- Hch. apply in_or_app. right.
          unfold deferred_trace. simpl. auto. }
        destruct (inv_sent c s Hinv ch e Hsent) as [Hs | Hr].
        - congruence.
        - exact (Hnorecv e Hr). }
      assert (Hbuf : 0 <= buf (args_of c i)) by (destruct ch; simpl; assumption).
      assert (Hslot' : slot (shared s) (errCh (args_of c i)) = None)
        by (rewrite Hch; exact Hslot).
      destruct (thread_progress (args_of c i) (shared s) t _ Hbuf Hslot'
                  (trun_shape _ _ _ _ Hrs) Hne) as (r & ev & t' & w' & Hts & Heff).
      rewrite <- (inv_params c s Hinv) in Hts.
      destruct (copier_can_step s i t t' r ev w' Hi Hth Hts Heff) as (s' & Hstep & _).
      exists (i, r), s'. split; [exact Hstep|].
      right. exists ch, k. auto.
  - unfold returned in Hret. rewrite Hg in Hret. discriminate Hret.
Qed.

Lemma BidiCopy_never_stuck_witness :
  0 <= bufOut sample_call /\ 0 <= bufIn sample_call /\
  exists m s',
    step (mkSys sample_call (mkWorld 0 None None no_deadline no_deadline)
                (Recv OutErrCh (fun outErr => Recv InErrCh (fun inErr =>
                   Ret (outErr, inErr))))
                (Some (Defer (deferred (args_out sample_call) Nil)))
                (Some (doCopy (args_in sample_call)))
                [(TMain, EvGo TOut); (TMain, EvGo TIn);
                 (TOut, EvLoad 0); (TOut, EvRead 1%nat 0 EOF)]) m = Some s' /\
    (fst m = TMain \/
     exists ch k,
       Recv OutErrCh (fun outErr => Recv InErrCh (fun inErr =>
         Ret (outErr, inErr))) = Recv ch k /\
       slot (mkWorld 0 None None no_deadline no_deadline) ch = None /\
       fst m = ch_tid ch).
Proof.
  assert (HO : 0 <= bufOut sample_call) by (simpl; lia).
  assert (HI : 0 <= bufIn sample_call) by (simpl; lia).
  split; [exact HO|]. split; [exact HI|].
  exact (BidiCopy_never_stuck sample_call no_deadline no_deadline
           [(TMain, RUnit); (TMain, RUnit); (TOut, RVal 0); (TOut, RIO 0 EOF)]
           _ HO HI eq_refl eq_refl).
Defined.

(** ** Possible completion: a call can always still return *)

Lemma slot_mkWorld (w : world) (v : Z) (r d : conn -> option Z) (ch : chan) :
  slot (mkWorld v (outErrCh w) (inErrCh w) r d) ch = slot w ch.
Proof. destruct ch; reflexivity. Qed.

Ltac settle Hbuf Hslot :=
  cbn;
  repeat (first [ rewrite Hbuf | rewrite slot_mkWorld | rewrite Hslot
                | rewrite Z.eqb_refl
                | match goal with
                  | E : (_ =? _) = _ |- _ => rewrite E
                  end ]; cbn);
  reflexivity.

Ltac try_rs Hbuf Hslot rs :=
  exists rs; do 2 eexists;
  split; [settle Hbuf Hslot | settle Hbuf Hslot].

(** From wherever a copier is, results of its actions exist that take it
    to the end of the deferred function: a read that returns [io.EOF] (or,
    when bytes are waiting to be written, a short write) ends the loop. *)
Lemma can_finish (a : args) (w : world) (t : thread) (evs : list event) :
  0 <= buf a -> slot w (errCh a) = None ->
  run_shape a t evs -> t <> Exited ->
  exists rs evs' w',
    trun a rs t = Some (Exited, evs') /\ effects w evs' = Some w'.
Proof.
  intros Hbuf Hslot Hshape Hne. apply Z.leb_le in Hbuf.
  remember 0 as z eqn:Hz in |-.
  assert (Hshort : forall n, (0 <? n) = true -> (z =? n) = false).
  { intros n Hn. subst z. apply Z.eqb_neq. apply Z.ltb_lt in Hn. lia. }
  clear Hz.
  destruct Hshape as [passes tr p Hf Hp Hr | passes last e tr p Hf Hl Hp Hr
                     | passes last e tr Hf Hl Hp]; [| |congruence]; clear Hne.
  - unfold loop_body in Hp.
    explore Hp
      ltac:(try discriminate Hr;
            try (exfalso;
                 match goal with
                 | E : isTimeout (Errorf ?m) = None |- _ =>
                     exact (isTimeout_some (Errorf m) ltac:(discriminate) E)
                 end);
            repeat match goal with
                   | E : (0 <? ?n) = true |- _ => pose proof (Hshort n E); clear E
                   end;
            first [ try_rs Hbuf Hslot [RIO 0 EOF; RUnit; RVal 0; RUnit; RUnit]
                  | try_rs Hbuf Hslot [RIO z EOF; RUnit; RVal 0; RUnit; RUnit]
                  | try_rs Hbuf Hslot [RUnit; RIO 0 EOF; RUnit; RVal 0; RUnit; RUnit]
                  | try_rs Hbuf Hslot [RUnit; RIO z EOF; RUnit; RVal 0; RUnit; RUnit]
                  | try_rs Hbuf Hslot
                      [RVal 0; RUnit; RIO 0 EOF; RUnit; RVal 0; RUnit; RUnit]
                  | try_rs Hbuf Hslot
                      [RVal 0; RUnit; RIO z EOF; RUnit; RVal 0; RUnit; RUnit]
                  | destruct (stop w =? 1) eqn:Hst;
                    [ try_rs Hbuf Hslot
                        [RVal (stop w); RVal 0; RUnit; RIO 0 EOF;
                         RUnit; RVal 0; RUnit; RUnit]
                    | try_rs Hbuf Hslot
                        [RVal (stop w); RIO 0 EOF; RUnit; RVal 0; RUnit; RUnit] ] ]).
  - unfold deferred in Hp.
    explore Hp ltac:(try discriminate Hr;
                     first [ try_rs Hbuf Hslot [RUnit; RVal 0; RUnit; RUnit]
                           | try_rs Hbuf Hslot [RVal 0; RUnit; RUnit]
                           | try_rs Hbuf Hslot [RUnit; RUnit]
                           | try_rs Hbuf Hslot [RUnit] ]).
Qed.

Lemma inv_exec (c : call) (ms : list (tid * resp)) (s s' : sys) :
  session_inv c s -> exec ms s = Some s' -> session_inv c s'.
Proof.
  intros Hinv. apply (exec_invariant (session_inv c)); [|exact Hinv].
  intros. eapply inv_step; eassumption.
Qed.

(** A run of one copier alone, as a schedule of the call. *)
Lemma copier_exec (i : tid) (rs : list resp) :
  i = TOut \/ i = TIn ->
  forall (s : sys) (t t' : thread) (evs : list event) (w' : world),
    thread_of s i = Some t ->
    trun (args_of (params s) i) rs t = Some (t', evs) ->
    effects (shared s) evs = Some w' ->
    exists s',
      exec (map (pair i) rs) s = Some s' /\
      thread_of s' i = Some t' /\ gmain s' = gmain s /\
      thread_of s' (other i) = thread_of s (other i).
Proof.
  intros Hi. induction rs as [|r rs IH]; intros s t t' evs w' Hth Hrun Heff.
  - simpl in Hrun. injection Hrun as <- <-. exists s. simpl. auto.
  - simpl in Hrun.
    destruct (tstep (args_of (params s) i) t r) as [[ev t1]|] eqn:Hts; [|discriminate].
    destruct (trun (args_of (params s) i) rs t1) as [[t2 evs1]|] eqn:Hrs; [|discriminate].
    injection Hrun as <- <-. simpl in Heff.
    destruct (effect (shared s) ev) as [w1|] eqn:He; [|discriminate].
    destruct (copier_can_step s i t t1 r ev w1 Hi Hth Hts He)
      as (s1 & Hstep & Hw1 & Hp1 & Hth1 & _).
    destruct (step_copier s s1 i r Hi Hstep)
      as (_ & _ & _ & _ & _ & _ & _ & Hg1 & _ & Ho1 & _).
    rewrite <- Hp1 in Hrs. rewrite <- Hw1 in Heff.
    destruct (IH s1 t1 t2 evs1 w' Hth1 Hrs Heff) as (s' & Hex & Hth' & Hg' & Ho').
    exists s'. split; [|split; [|split]].
    + cbn [map]. rewrite exec_cons, Hstep. exact Hex.
    + exact Hth'.
    + congruence.
    + congruence.
Qed.

(** An exited copier has sent, and what it sent is in its channel until the
    caller receives it. *)
Lemma exited_has_sent (c : call) (s : sys) (i : tid) :
  session_inv c s -> i = TOut \/ i = TIn ->
  thread_of s i = Some Exited ->
  (forall e, ~ In (EvRecv (errCh (args_of c i)) e) (proj TMain (log s))) ->
  exists e, slot (shared s) (errCh (args_of c i)) = Some e.
Proof.
  intros Hinv Hi Hth Hno.
  pose proof (inv_copier c s Hinv i Hi) as Hc. rewrite Hth in Hc.
  destruct Hc as [[rs Hrs] _].
  destruct (exited_trace _ _ _ Hrs) as (pre & e & tn & Hevs).
  assert (Hsent : In (EvSend (errCh (args_of c i)) e)
                     (proj (ch_tid (errCh (args_of c i))) (log s))).
  { rewrite (errCh_tid c i Hi), Hevs. apply in_or_app. right.
    unfold deferred_trace. simpl. auto. }
  destruct (inv_sent c s Hinv _ e Hsent) as [Hs | Hr].
  - exists e. exact Hs.
  - destruct (Hno e Hr).
Qed.

Lemma drive_copier (c : call) (s : sys) (i : tid) :
  0 <= buf (args_of c i) ->
  session_inv c s -> i = TOut \/ i = TIn ->
  In (EvGo i) (proj TMain (log s)) ->
  exists ms' s',
    exec ms' s = Some s' /\
    thread_of s' i = Some Exited /\ gmain s' = gmain s /\
    thread_of s' (other i) = thread_of s (other i).
Proof.
  intros Hbuf Hinv Hi Hgo.
  pose proof (inv_copier c s Hinv i Hi) as Hc.
  destruct (thread_of s i) as [t|] eqn:Hth; [|destruct Hc as [_ Hc]; contradiction].
  destruct Hc as [[rs Hrs] _].
  assert (Hdec : t = Exited \/ t <> Exited)
    by (destruct t; [right; discriminate | right; discriminate | left; reflexivity]).
  destruct Hdec as [-> | Hne].
  - exists [], s. simpl. auto.
  - assert (Hslot : slot (shared s) (errCh (args_of c i)) = None).
    { destruct (slot (shared s) (errCh (args_of c i))) as [e|] eqn:Hs; [|reflexivity].
      destruct (inv_slot c s Hinv _ e Hs) as [Hsent _].
      rewrite (errCh_tid c i Hi) in Hsent.
      destruct (sent_is_exited _ _ _ _ _ _ Hrs Hsent) as [-> _]. congruence. }
    destruct (can_finish (args_of c i) (shared s) t _ Hbuf Hslot
                (trun_shape _ _ _ _ Hrs) Hne) as (rs' & evs' & w' & Hrun & Heff).
    rewrite <- (inv_params c s Hinv) in Hrun.
    destruct (copier_exec i rs' Hi s t Exited evs' w' Hth Hrun Heff)
      as (s' & Hex & Hth' & Hg' & Ho').
    exists (map (pair i) rs'), s'. auto.
Qed.

Lemma main_points (tr : list event) (p : prog (error * error)) :
  ptrace BidiCopy_body tr p ->
  (exists p1 p2, pstep p RUnit = Some (EvGo TOut, p1) /\
                 pstep p1 RUnit = Some (EvGo TIn, p2)) \/
  (exists p2, pstep p RUnit = Some (EvGo TIn, p2)) \/
  (In (EvGo TOut) tr /\ In (EvGo TIn) tr).
Proof.
  intros H. unfold BidiCopy_body in H.
  explore H ltac:(first [ left; eexists _, _; split; reflexivity
                        | right; left; eexists; reflexivity
                        | right; right; split; simpl; tauto ]).
Qed.

Lemma main_go_step (s : sys) (g : tid) (p1 : prog (error * error)) :
  pstep (gmain s) RUnit = Some (EvGo g, p1) ->
  exists s1,
    step s (TMain, RUnit) = Some s1 /\ gmain s1 = p1 /\
    log s1 = log s ++ [(TMain, EvGo g)].
Proof.
  intros Hp. unfold step. rewrite Hp. simpl.
  eexists. split; [reflexivity|]. destruct g; simpl; auto.
Qed.

Lemma drive_main_go (c : call) (s : sys) :
  session_inv c s ->
  exists ms' s',
    exec ms' s = Some s' /\
    In (EvGo TOut) (proj TMain (log s')) /\ In (EvGo TIn) (proj TMain (log s')).
Proof.
  intros Hinv.
  destruct (main_points _ _ (inv_main c s Hinv))
    as [(p1 & p2 & H1 & H2) | [(p2 & H2) | [HO HI]]].
  - destruct (main_go_step s TOut p1 H1) as (s1 & Hs1 & Hg1 & Hl1).
    rewrite <- Hg1 in H2.
    destruct (main_go_step s1 TIn p2 H2) as (s2 & Hs2 & Hg2 & Hl2).
    exists [(TMain, RUnit); (TMain, RUnit)], s2. split; [|split].
    + rewrite exec_cons, Hs1, exec_cons, Hs2. reflexivity.
    + apply proj_In. rewrite Hl2, Hl1. apply in_or_app. left.
      apply in_or_app. right. simpl. auto.
    + apply proj_In. rewrite Hl2. apply in_or_app. right. simpl. auto.
  - destruct (main_go_step s TIn p2 H2) as (s2 & Hs2 & Hg2 & Hl2).
    pose proof (inv_step c s s2 _ Hinv Hs2) as Hinv2.
    pose proof (inv_main c s2 Hinv2) as Hm2.
    exists [(TMain, RUnit)], s2. split; [|split].
    + rewrite exec_cons, Hs2. reflexivity.
    + destruct (main_states _ _ Hm2)
        as [[Ht | Ht] | [[Ht _] | [(oe & Ht & _) | (oe & ie & Ht & _)]]];
        rewrite Ht; simpl; auto.
      assert (Hin : In (TMain, EvGo TIn) (log s2))
        by (rewrite Hl2; apply in_or_app; right; simpl; auto).
      apply proj_In in Hin. rewrite Ht in Hin. destruct Hin.
    + apply proj_In. rewrite Hl2. apply in_or_app. right. simpl. auto.
  - exists [], s. simpl. auto.
Qed.

Lemma drive_main_recv (c : call) (s : sys) :
  session_inv c s ->
  thread_of s TOut = Some Exited -> thread_of s TIn = Some Exited ->
  exists ms' s' r, exec ms' s = Some s' /\ returned s' = Some r.
Proof.
  intros Hinv HO HI.
  pose proof (exited_has_sent c s TOut Hinv (or_introl eq_refl) HO) as HsO.
  pose proof (exited_has_sent c s TIn Hinv (or_intror eq_refl) HI) as HsI.
  simpl in HsO, HsI.
  pose proof (inv_copier c s Hinv TIn (or_intror eq_refl)) as Hc.
  rewrite HI in Hc. destruct Hc as [_ HgoI].
  destruct (main_states _ _ (inv_main c s Hinv))
    as [[Ht | Ht] | [[Ht Hg] | [(oe & Ht & Hg) | (oe & ie & Ht & Hg)]]];
    rewrite Ht in *.
  - destruct HgoI.
  - destruct HgoI as [H | []]. discriminate H.
  - destruct HsO as [oe HslO].
    { intros e Hin. simpl in Hin.
      repeat (destruct Hin as [Hin | Hin]; [discriminate Hin|]). exact Hin. }
    destruct HsI as [ie HslI].
    { intros e Hin. simpl in Hin.
      repeat (destruct Hin as [Hin | Hin]; [discriminate Hin|]). exact Hin. }
    exists [(TMain, RErr oe); (TMain, RErr ie)]. do 2 eexists.
    rewrite exec_cons. erewrite main_recv_step; [| exact Hg | exact HslO].
    rewrite exec_cons. erewrite main_recv_step; [| reflexivity | exact HslI].
    split; reflexivity.
  - destruct HsI as [ie HslI].
    { intros e Hin. simpl in Hin.
      repeat (destruct Hin as [Hin | Hin]; [discriminate Hin|]). exact Hin. }
    exists [(TMain, RErr ie)]. do 2 eexists.
    rewrite exec_cons. erewrite main_recv_step; [| exact Hg | exact HslI].
    split; reflexivity.
  - exists [], s, (oe, ie). split; [reflexivity|].
    unfold returned. rewrite Hg. reflexivity.
Qed.

(** X9: From every state a [BidiCopy] call can reach, the call can still
    return: there are results of the pending reads and writes, and a
    schedule, under which both copiers finish and the caller receives both
    errors.  No state is a dead end, whatever has been read, written or
    timed out so far.  The length of a buffer is not negative. *)
Theorem BidiCopy_can_always_return (c : call) (rdl0 wdl0 : conn -> option Z)
        (ms : list (tid * resp)) (s : sys) :
  0 <= bufOut c -> 0 <= bufIn c ->
  exec ms (BidiCopy c rdl0 wdl0) = Some s ->
  exists ms' s' r, exec ms' s = Some s' /\ returned s' = Some r.
Proof.
  intros HbO HbI Hrun. pose proof (inv_reachable _ _ _ _ _ Hrun) as Hinv.
  destruct (drive_main_go c s Hinv) as (ms1 & s1 & Hex1 & HgoO & HgoI).
  pose proof (inv_exec c ms1 s s1 Hinv Hex1) as Hinv1.
  destruct (drive_copier c s1 TOut HbI Hinv1 (or_introl eq_refl) HgoO)
    as (ms2 & s2 & Hex2 & HO2 & Hg2 & HI2).
  pose proof (inv_exec c ms2 s1 s2 Hinv1 Hex2) as Hinv2.
  assert (HgoI2 : In (EvGo TIn) (proj TMain (log s2))).
  { pose proof (inv_copier c s1 Hinv1 TIn (or_intror eq_refl)) as H1.
    pose proof (inv_copier c s2 Hinv2 TIn (or_intror eq_refl)) as H2.
    simpl in HI2. simpl in H1, H2. rewrite HI2 in H2.
    destruct (gin s1) as [t|].
    - destruct H2 as [_ H2]. exact H2.
    - destruct H1 as [_ H1]. contradiction. }
  destruct (drive_copier c s2 TIn HbO Hinv2 (or_intror eq_refl) HgoI2)
    as (ms3 & s3 & Hex3 & HI3 & Hg3 & HO3).
  pose proof (inv_exec c ms3 s2 s3 Hinv2 Hex3) as Hinv3.
  simpl in HO3, HO2. rewrite HO2 in HO3.
  destruct (drive_main_recv c s3 Hinv3 HO3 HI3) as (ms4 & s4 & r & Hex4 & Hret).
  exists (ms1 ++ ms2 ++ ms3 ++ ms4), s4, r.
  split; [|exact Hret].
  rewrite exec_app, Hex1, exec_app, Hex2, exec_app, Hex3. exact Hex4.
Qed.

Lemma BidiCopy_can_always_return_witness :
  0 <= bufOut sample_call /\ 0 <= bufIn sample_call /\
  exists ms' s' r,
    exec ms' (mkSys sample_call (mkWorld 0 None None no_deadline no_deadline)
                (Recv OutErrCh (fun outErr => Recv InErrCh (fun inErr =>
                   Ret (outErr, inErr))))
                (Some (Defer (deferred (args_out sample_call) Nil)))
                (Some (doCopy (args_in sample_call)))
                [(TMain, EvGo TOut); (TMain, EvGo TIn);
                 (TOut, EvLoad 0); (TOut, EvRead 1%nat 0 EOF)]) = Some s' /\
    returned s' = Some r.
Proof.
  assert (HO : 0 <= bufOut sample_call) by (simpl; lia).
  assert (HI : 0 <= bufIn sample_call) by (simpl; lia).
  split; [exact HO|]. split; [exact HI|].
  exact (BidiCopy_can_always_return sample_call no_deadline no_deadline
           [(TMain, RUnit); (TMain, RUnit); (TOut, RVal 0); (TOut, RIO 0 EOF)]
           _ HO HI eq_refl).
Defined.

(** ** What a call leaves behind *)

Lemma received_means_armed (c : call) (s : sys) (i : tid) (e : error) :
  session_inv c s -> i = TOut \/ i = TIn ->
  In (EvRecv (errCh (args_of c i)) e) (proj TMain (log s)) ->
  exists d, In (i, EvSetReadDeadline (dst (args_of c i)) d) (log s).
Proof.
  intros Hinv Hi Hin.
  destruct (inv_recv c s Hinv _ e Hin) as [Hsent _].
  rewrite (errCh_tid c i Hi) in Hsent.
  destruct (copier_run c s i Hinv Hi) as (t & rs & _ & Hrs & _).
  { intros Hnil. rewrite Hnil in Hsent. contradiction. }
  destruct (sent_is_exited _ _ _ _ _ _ Hrs Hsent) as [-> _].
  destruct (exited_trace _ _ _ Hrs) as (pre & e' & tn & Hevs).
  exists (time_Add tn copyTimeout). apply proj_In. rewrite Hevs.
  apply in_or_app. right. unfold deferred_trace. simpl. auto.
Qed.

(** X10: [BidiCopy] returns with a read deadline armed on both connections: on
    [out] and on [in] alike, the read deadline is then [copyTimeout] after a
    clock reading taken by one of the copiers during the call; the call
    does not restore the deadlines the caller had set. *)
Theorem BidiCopy_leaves_read_deadlines (c : call) (rdl0 wdl0 : conn -> option Z)
        (ms : list (tid * resp)) (s : sys) (r : error * error) :
  exec ms (BidiCopy c rdl0 wdl0) = Some s ->
  returned s = Some r ->
  (exists j tx, (j = TOut \/ j = TIn) /\ In (j, EvNow tx) (log s) /\
                rdl (shared s) (out c) = Some (time_Add tx copyTimeout)) /\
  (exists j tx, (j = TOut \/ j = TIn) /\ In (j, EvNow tx) (log s) /\
                rdl (shared s) (in_ c) = Some (time_Add tx copyTimeout)).
Proof.
  intros Hrun Hret. pose proof (inv_reachable _ _ _ _ _ Hrun) as Hinv.
  unfold returned in Hret.
  destruct (gmain s) as [[oe ie]| | | | | | | | | | | ] eqn:Hg; try discriminate Hret.
  pose proof (inv_main c s Hinv) as Hm. rewrite Hg in Hm.
  apply main_returned in Hm.
  assert (Hclock : forall j tx, In (j, EvNow tx) (log s) -> j = TOut \/ j = TIn).
  { intros j tx Hin. destruct j; auto. exfalso.
    apply proj_In in Hin. rewrite Hm in Hin. simpl in Hin.
    repeat (destruct Hin as [Hin | Hin]; [discriminate Hin|]). exact Hin. }
  split.
  - destruct (received_means_armed c s TOut oe Hinv (or_introl eq_refl)) as [d Hd].
    { rewrite Hm. simpl. auto. }
    destruct (inv_rdl c s Hinv (out c)) as (j & tx & Hnow & Hrdl).
    { exists TOut, d. exact Hd. }
    exists j, tx. split; [exact (Hclock j tx Hnow)|]. auto.
  - destruct (received_means_armed c s TIn ie Hinv (or_intror eq_refl)) as [d Hd].
    { rewrite Hm. simpl. auto. }
    destruct (inv_rdl c s Hinv (in_ c)) as (j & tx & Hnow & Hrdl).
    { exists TIn, d. exact Hd. }
    exists j, tx. split; [exact (Hclock j tx Hnow)|]. auto.
Qed.

Lemma BidiCopy_leaves_read_deadlines_witness :
  exec sample_schedule (BidiCopy sample_call no_deadline no_deadline) =
    Some sample_final /\
  returned sample_final = Some (Nil, Nil) /\
  exists j tx, (j = TOut \/ j = TIn) /\ In (j, EvNow tx) (log sample_final) /\
               rdl (shared sample_final) (out sample_call) =
                 Some (time_Add tx copyTimeout).
Proof.
  split; [reflexivity|]. split; [reflexivity|].
  exact (proj1 (BidiCopy_leaves_read_deadlines sample_call no_deadline no_deadline
                  sample_schedule sample_final (Nil, Nil) eq_refl eq_refl)).
Defined.

(** * The configurable functions ([netx.go]) *)












